(** * SaferCPlusPlus: reference-counted and access-controlled shared pointers

  A shallow embedding of [mserefcounted.h] (the single-threaded
  [TRefCountedPointer]) and of [mseasyncshared.h] (the "AsyncShared"
  family: a cell guarded by a [std::shared_timed_mutex], requesters that
  share ownership of the cell, and pointer proxies whose lifetime is the
  lifetime of a lock on the cell).

  Conventions.
  - A C++ reference or pointer to a heap object is the index of that object
    in the model's free store; a null pointer is [None].
  - A function that can throw returns an [outcome].
  - Objects are never relocated: an object keeps its index for its whole
    life, and a destroyed or deleted object leaves a tombstone behind. *)

From stdpp Require Import base list strings.
From Stdlib Require Import ZArith Lia.

(** ** Exceptions *)

(** The only exception the two headers throw is [std::out_of_range], each
  time with a message naming the class. *)
Inductive exception : Type :=
| out_of_range (what : string).

(** What a call gives: a value, an exception, or nothing the language
  defines (the call has undefined behaviour). *)
Inductive outcome (A : Type) : Type :=
| Returned (a : A)
| Thrown (e : exception)
| Undefined.

Arguments Returned {A} a.
Arguments Thrown {A} e.
Arguments Undefined {A}.

(** * mserefcounted.h *)

Module RefCounted.

(** [int] is taken to be 32 bits wide.  Overflow of a signed [int] is
    undefined in C++; the model wraps around, as two's-complement hardware
    does. *)
Definition INT_MAX : Z := 2147483647.

Definition INT_MIN : Z := -2147483648.

Definition int_wrap (z : Z) : Z :=
  ((z - INT_MIN) mod 4294967296 + INT_MIN)%Z.

Section WithTarget.

(** The target type [X] of [TRefCountedPointer<X>]. *)
Variable X : Type.

(** [CRefCounter] and [TRefWithTargetObj<Y>]: an [int] counter, initialised
    to 1 by the constructor, next to the target object.  [m_counter++] and
    [m_counter--] wrap around at the bounds of [int]. *)
Record TRefWithTargetObj : Type := {
  m_counter : Z;
  m_object : X
}.

Definition CRefCounter (x : X) : TRefWithTargetObj :=
  {| m_counter := 1; m_object := x |}.

Definition increment (o : TRefWithTargetObj) : TRefWithTargetObj :=
  {| m_counter := int_wrap (m_counter o + 1); m_object := m_object o |}.

Definition decrement (o : TRefWithTargetObj) : TRefWithTargetObj :=
  {| m_counter := int_wrap (m_counter o - 1); m_object := m_object o |}.

Definition use_count (o : TRefWithTargetObj) : Z := m_counter o.

(** The free store: slot [a] holds the [TRefWithTargetObj] allocated at
    address [a], or [None] once it has been deleted. *)
Definition free_store : Type := list (option TRefWithTargetObj).

(** The destructor of the target type, which [delete] runs on the
    holder's [m_object] before the holder is freed: what it does to the
    free store (a target that holds counted pointers releases them). *)
Class Target : Type := {
  target_destructor : X -> free_store -> free_store
}.

Context {target : Target}.

(** [TRefCountedPointer<X>] has one data member, a raw pointer to the
    counted holder. *)
Record TRefCountedPointer : Type := {
  m_ref_with_target_obj_ptr : option nat
}.

(** [TRefCountedPointer()] and [TRefCountedPointer(nullptr_t)]. *)
Definition TRefCountedPointer_default : TRefCountedPointer :=
  {| m_ref_with_target_obj_ptr := None |}.

Definition TRefCountedPointer_nullptr : TRefCountedPointer :=
  {| m_ref_with_target_obj_ptr := None |}.

(** [acquire(c)]: point at [c] and, when [c] is not null, increment its
    counter. *)
Definition acquire (c : option nat) (h : free_store)
  : free_store * TRefCountedPointer :=
  let this := {| m_ref_with_target_obj_ptr := c |} in
  match c with
  | Some a =>
      match h !! a with
      | Some (Some o) => (<[a := Some (increment o)]> h, this)
      | _ => (h, this)
      end
  | None => (h, this)
  end.

(** [dorelease(p)]: when [p] is not null, delete the holder if this was the
    last reference and decrement its counter otherwise.  [delete] runs the
    destructor of the target and then frees the holder. *)
Definition dorelease (p : option nat) (h : free_store) : free_store :=
  match p with
  | Some a =>
      match h !! a with
      | Some (Some o) =>
          if (1 =? use_count o)%Z
          then <[a := None]> (target_destructor (m_object o) h)
          else <[a := Some (decrement o)]> h
      | _ => h
      end
  | None => h
  end.

Definition release (this : TRefCountedPointer) (h : free_store) : free_store :=
  dorelease (m_ref_with_target_obj_ptr this) h.

(** [~TRefCountedPointer()]. *)
Definition destructor (this : TRefCountedPointer) (h : free_store)
  : free_store :=
  release this h.

(** [TRefCountedPointer(const TRefCountedPointer& r)]. *)
Definition copy_constructor (r : TRefCountedPointer) (h : free_store)
  : free_store * TRefCountedPointer :=
  acquire (m_ref_with_target_obj_ptr r) h.

(** [operator=(const TRefCountedPointer& r)].  [same] is the outcome of the
    address test [this != &r]; otherwise an [auto_release] guard keeps the
    old holder, the new one is acquired, and the guard's destructor
    releases the old one when the block is left. *)
Definition operator_assign (same : bool) (this r : TRefCountedPointer)
    (h : free_store) : free_store * TRefCountedPointer :=
  if same then (h, this)
  else
    let keep := m_ref_with_target_obj_ptr this in
    let '(h1, this1) := acquire (m_ref_with_target_obj_ptr r) h in
    (dorelease keep h1, this1).

(** [clear()]: the pointer is assigned [TRefCountedPointer<X>(nullptr)],
    after which the temporary is destroyed. *)
Definition clear (this : TRefCountedPointer) (h : free_store)
  : free_store * TRefCountedPointer :=
  let tmp := TRefCountedPointer_nullptr in
  let '(h1, this1) := operator_assign false this tmp h in
  (destructor tmp h1, this1).

(** [get()]: the address of the target, or [nullptr]. *)
Definition get (this : TRefCountedPointer) : option nat :=
  match m_ref_with_target_obj_ptr this with
  | Some a => Some a
  | None => None
  end.

(** [operator bool()]: [nullptr != get()]. *)
Definition operator_bool (this : TRefCountedPointer) : bool :=
  match get this with
  | Some _ => true
  | None => false
  end.

(** [operator*()] and [operator->()]: throw on a null holder pointer,
    otherwise a reference (a pointer) to the holder's [m_object]. *)
Definition operator_star (this : TRefCountedPointer) : outcome nat :=
  match m_ref_with_target_obj_ptr this with
  | None =>
      Thrown (out_of_range
        "attempt to dereference null pointer - mse::TRefCountedPointer"%string)
  | Some a => Returned a
  end.

Definition operator_arrow (this : TRefCountedPointer) : outcome nat :=
  match m_ref_with_target_obj_ptr this with
  | None =>
      Thrown (out_of_range
        "attempt to dereference null pointer - mse::TRefCountedPointer"%string)
  | Some a => Returned a
  end.

(** [unique()]. *)
Definition unique (this : TRefCountedPointer) (h : free_store) : bool :=
  match m_ref_with_target_obj_ptr this with
  | Some a =>
      match h !! a with
      | Some (Some o) => (use_count o =? 1)%Z
      | _ => false
      end
  | None => true
  end.

(** [make_refcounted(args...)]: allocate a holder (counter 1) and wrap it
    through the private constructor, which does not touch the counter. *)
Definition make_refcounted (x : X) (h : free_store)
  : free_store * TRefCountedPointer :=
  (h ++ [Some (CRefCounter x)],
   {| m_ref_with_target_obj_ptr := Some (length h) |}).

(** The four ways the interface yields a null pointer: the default
    constructor, the [nullptr_t] constructor, [clear()] on any pointer, and
    the assignment [p = nullptr] (a temporary built by the [nullptr_t]
    constructor, hence never [this]). *)
Inductive null_origin : Type :=
  | default_constructed
  | constructed_from_nullptr
  | cleared (p : TRefCountedPointer) (h : free_store)
  | assigned_null (p : TRefCountedPointer) (h : free_store).

Definition null_pointer (o : null_origin) : TRefCountedPointer :=
  match o with
  | default_constructed => TRefCountedPointer_default
  | constructed_from_nullptr => TRefCountedPointer_nullptr
  | cleared p h => snd (clear p h)
  | assigned_null p h =>
      snd (operator_assign false p TRefCountedPointer_nullptr h)
  end.

End WithTarget.

Arguments m_counter {X} _.
Arguments CRefCounter {X} x.
Arguments increment {X} o.
Arguments decrement {X} o.
Arguments use_count {X} o.
Arguments target_destructor {X Target} _ _.
Arguments release {X target} this h.
Arguments m_object {X} _.
Arguments acquire {X} c h.
Arguments dorelease {X target} p h.
Arguments destructor {X target} this h.
Arguments copy_constructor {X} r h.
Arguments operator_assign {X target} same this r h.
Arguments clear {X target} this h.
Arguments unique {X} this h.
Arguments make_refcounted {X} x h.
Arguments default_constructed {X}.
Arguments constructed_from_nullptr {X}.
Arguments cleared {X} p h.
Arguments assigned_null {X} p h.
Arguments null_pointer {X target} o.

(** A target type whose destructor leaves the free store alone. *)
Definition plain_target (X : Type) : Target X :=
  {| target_destructor := fun _ h => h |}.

End RefCounted.

(** * mseasyncshared.h *)

Module AsyncShared.

(** ** [std::shared_timed_mutex]

  The standard library's reader/writer mutex, as the header uses it: held
  by one exclusive owner, or by any number of shared owners, or free.
  [lock] and [lock_shared] return [None] where the real call would keep
  the calling thread waiting.  (Locking a mutex the calling thread already
  owns is undefined in C++; the model lets such a caller wait as well.)

  The standard leaves open whether a thread that asks for shared ownership
  is kept waiting while another thread waits for exclusive ownership; an
  [implementation] says which: with [writers_first] it is. *)
Class implementation : Type := {
writers_first : bool
}.

Record shared_timed_mutex : Type := {
writer : bool;
readers : nat
}.

Definition unlocked : shared_timed_mutex :=
{| writer := false; readers := 0 |}.

Definition lock (m : shared_timed_mutex) : option shared_timed_mutex :=
if writer m || negb (readers m =? 0) then None
else Some {| writer := true; readers := readers m |}.

(** [writer_waits]: a thread is waiting for exclusive ownership and the
  implementation lets it go first. *)
Definition lock_shared (writer_waits : bool) (m : shared_timed_mutex)
: option shared_timed_mutex :=
if writer m || writer_waits then None
else Some {| writer := false; readers := S (readers m) |}.

Definition unlock (m : shared_timed_mutex) : shared_timed_mutex :=
{| writer := false; readers := readers m |}.

Definition unlock_shared (m : shared_timed_mutex) : shared_timed_mutex :=
{| writer := writer m; readers := pred (readers m) |}.

(** ** The classes of the header *)

Inductive requester_class : Type :=
| TAsyncSharedAccessRequester
| TAsyncSharedImmutableAccessRequester
| TAsyncSharedSimpleObjectYouAreSureHasNoMutableMembersAccessRequester
| TAsyncSharedSimpleObjectYouAreSureHasNoMutableMembersImmutableAccessRequester.

Inductive pointer_class : Type :=
| TAsyncSharedPointer
| TAsyncSharedConstPointer
| TAsyncSharedImmutableConstPointer
| TAsyncSharedSimpleObjectYouAreSureHasNoMutableMembersPointer
| TAsyncSharedSimpleObjectYouAreSureHasNoMutableMembersConstPointer
| TAsyncSharedSimpleObjectYouAreSureHasNoMutableMembersImmutableConstPointer.

#[global] Instance requester_class_eq_dec : EqDecision requester_class.
Proof. solve_decision. Defined.

#[global] Instance pointer_class_eq_dec : EqDecision pointer_class.
Proof. solve_decision. Defined.

(** The lock data member each pointer class declares after [m_shptr]:
  a [std::unique_lock<std::shared_timed_mutex> m_unique_lock], a
  [std::shared_lock<std::shared_timed_mutex> m_shared_lock], or none (the
  member is commented out in the last class). *)
Inductive lock_member : Type :=
| m_unique_lock
| m_shared_lock
| no_lock_member.

#[global] Instance lock_member_eq_dec : EqDecision lock_member.
Proof. solve_decision. Defined.

Definition lock_member_of (k : pointer_class) : lock_member :=
match k with
| TAsyncSharedPointer => m_unique_lock
| TAsyncSharedConstPointer => m_unique_lock
| TAsyncSharedImmutableConstPointer => m_unique_lock
| TAsyncSharedSimpleObjectYouAreSureHasNoMutableMembersPointer => m_unique_lock
| TAsyncSharedSimpleObjectYouAreSureHasNoMutableMembersConstPointer => m_shared_lock
| TAsyncSharedSimpleObjectYouAreSureHasNoMutableMembersImmutableConstPointer =>
    no_lock_member
end.

(** The result type of [operator*] and [operator->]: [TAsyncSharedObj<_Ty>&]
  (the payload can be written through it) or [const _Ty&]. *)
Inductive access : Type :=
| mutable_access
| const_access.

Definition dereference_type (k : pointer_class) : access :=
match k with
| TAsyncSharedPointer => mutable_access
| TAsyncSharedSimpleObjectYouAreSureHasNoMutableMembersPointer => mutable_access
| _ => const_access
end.

(** Every pointer class has a private constructor and befriends exactly one
  requester class. *)
Definition friend_class (k : pointer_class) : requester_class :=
match k with
| TAsyncSharedPointer => TAsyncSharedAccessRequester
| TAsyncSharedConstPointer => TAsyncSharedAccessRequester
| TAsyncSharedImmutableConstPointer => TAsyncSharedImmutableAccessRequester
| TAsyncSharedSimpleObjectYouAreSureHasNoMutableMembersPointer =>
    TAsyncSharedSimpleObjectYouAreSureHasNoMutableMembersAccessRequester
| TAsyncSharedSimpleObjectYouAreSureHasNoMutableMembersConstPointer =>
    TAsyncSharedSimpleObjectYouAreSureHasNoMutableMembersAccessRequester
| TAsyncSharedSimpleObjectYouAreSureHasNoMutableMembersImmutableConstPointer =>
    TAsyncSharedSimpleObjectYouAreSureHasNoMutableMembersImmutableAccessRequester
end.

(** The public non-static member functions of the requester classes, and the
  pointer class each returns; [None] where the class has no such member. *)
Inductive requester_method : Type :=
| ptr
| const_ptr.

Definition member_function (r : requester_class) (m : requester_method)
: option pointer_class :=
match r, m with
| TAsyncSharedAccessRequester, ptr => Some TAsyncSharedPointer
| TAsyncSharedAccessRequester, const_ptr => Some TAsyncSharedConstPointer
| TAsyncSharedImmutableAccessRequester, ptr => None
| TAsyncSharedImmutableAccessRequester, const_ptr =>
    Some TAsyncSharedImmutableConstPointer
| TAsyncSharedSimpleObjectYouAreSureHasNoMutableMembersAccessRequester, ptr =>
    Some TAsyncSharedSimpleObjectYouAreSureHasNoMutableMembersPointer
| TAsyncSharedSimpleObjectYouAreSureHasNoMutableMembersAccessRequester, const_ptr =>
    Some TAsyncSharedSimpleObjectYouAreSureHasNoMutableMembersConstPointer
| TAsyncSharedSimpleObjectYouAreSureHasNoMutableMembersImmutableAccessRequester, ptr =>
    None
| TAsyncSharedSimpleObjectYouAreSureHasNoMutableMembersImmutableAccessRequester,
  const_ptr =>
    Some TAsyncSharedSimpleObjectYouAreSureHasNoMutableMembersImmutableConstPointer
end.

(** The static factory of a requester class allocates the cell with [new
  TAsyncSharedObj<_Ty>] or with [new const TAsyncSharedObj<_Ty>]. *)
Definition allocates_const (r : requester_class) : bool :=
match r with
| TAsyncSharedAccessRequester => false
| TAsyncSharedImmutableAccessRequester => true
| TAsyncSharedSimpleObjectYouAreSureHasNoMutableMembersAccessRequester => false
| TAsyncSharedSimpleObjectYouAreSureHasNoMutableMembersImmutableAccessRequester =>
    true
end.

(** The special member functions, as each pointer class declares them: the
  move constructor is [= default], both assignment operators are
  [= delete], the destructor is user-provided and no copy constructor is
  declared. *)
Inductive special_member : Type :=
| copy_constructor
| move_constructor
| copy_assignment
| move_assignment
| destructor.

Inductive declaration : Type :=
| defaulted
| deleted
| user_provided
| not_declared.

Definition pointer_declares (k : pointer_class) (f : special_member)
: declaration :=
match f with
| copy_constructor => not_declared
| move_constructor => defaulted
| copy_assignment => deleted
| move_assignment => deleted
| destructor => user_provided
end.

(** A requester class declares only its copy constructor ([= default]). *)
Definition requester_declares (r : requester_class) (f : special_member)
: declaration :=
match f with
| copy_constructor => defaulted
| _ => not_declared
end.

(** The language rule for a special member function: a declared one is
  usable unless deleted; an undeclared copy operation is implicitly
  deleted when the class declares a move operation and implicitly defined
  otherwise; an undeclared move operation is not generated when the class
  declares a copy operation, a move operation or a destructor (a call then
  resolves to the copy operation); an undeclared destructor is implicit. *)
Definition usable (declares : special_member -> declaration)
  (f : special_member) : bool :=
let declared g :=
  match declares g with not_declared => false | _ => true end in
match declares f with
| defaulted | user_provided => true
| deleted => false
| not_declared =>
    match f with
    | copy_constructor | copy_assignment =>
        negb (declared move_constructor || declared move_assignment)
    | move_constructor | move_assignment =>
        negb (declared copy_constructor || declared copy_assignment
              || declared move_constructor || declared move_assignment
              || declared destructor)
    | destructor => true
    end
end.

Definition class_name (k : pointer_class) : string :=
match k with
| TAsyncSharedPointer => "TAsyncSharedPointer"
| TAsyncSharedConstPointer => "TAsyncSharedConstPointer"
| TAsyncSharedImmutableConstPointer => "TAsyncSharedImmutableConstPointer"
| TAsyncSharedSimpleObjectYouAreSureHasNoMutableMembersPointer =>
    "TAsyncSharedSimpleObjectYouAreSureHasNoMutableMembersPointer"
| TAsyncSharedSimpleObjectYouAreSureHasNoMutableMembersConstPointer =>
    "TAsyncSharedSimpleObjectYouAreSureHasNoMutableMembersConstPointer"
| TAsyncSharedSimpleObjectYouAreSureHasNoMutableMembersImmutableConstPointer =>
    "TAsyncSharedSimpleObjectYouAreSureHasNoMutableMembersImmutableConstPointer"
end%string.

Definition invalid_pointer (k : pointer_class) : exception :=
out_of_range
  (String.append "attempt to use invalid pointer - mse::" (class_name k)).

(** Short names for the classes of the pure path. *)
Abbreviation PureRequester :=
  TAsyncSharedSimpleObjectYouAreSureHasNoMutableMembersAccessRequester.
Abbreviation PureImmutableRequester :=
  TAsyncSharedSimpleObjectYouAreSureHasNoMutableMembersImmutableAccessRequester.
Abbreviation PurePointer :=
  TAsyncSharedSimpleObjectYouAreSureHasNoMutableMembersPointer.
Abbreviation PureConstPointer :=
  TAsyncSharedSimpleObjectYouAreSureHasNoMutableMembersConstPointer.
Abbreviation PureImmutableConstPointer :=
  TAsyncSharedSimpleObjectYouAreSureHasNoMutableMembersImmutableConstPointer.

(** The pointer classes of the general path. *)
Definition general_path : list pointer_class :=
  [TAsyncSharedPointer; TAsyncSharedConstPointer;
   TAsyncSharedImmutableConstPointer].

Section WithPayload.

(** The payload type [_Ty], and the implementation of the mutex. *)
Variable T : Type.

Context {impl : implementation}.

(** ** The heap

    A cell is a [TAsyncSharedObj<_Ty>] (the payload and [m_mutex1])
    together with the control block of the [std::shared_ptr]s that own it:
    [use_count] is the number of [shared_ptr]s sharing ownership.  Two
    fields are bookkeeping of the model only: [deletions] counts how often
    the cell has been deleted, and [made_by] records the requester class
    whose static factory allocated it. *)
Record cell : Type := {
  payload : T;
  m_mutex1 : shared_timed_mutex;
  use_count : nat;
  deletions : nat;
  made_by : requester_class
}.

Definition with_payload (v : T) (x : cell) : cell :=
  {| payload := v; m_mutex1 := m_mutex1 x; use_count := use_count x;
     deletions := deletions x; made_by := made_by x |}.

Definition with_mutex (m : shared_timed_mutex) (x : cell) : cell :=
  {| payload := payload x; m_mutex1 := m; use_count := use_count x;
     deletions := deletions x; made_by := made_by x |}.

(** Copying a [shared_ptr] increments the use count. *)
Definition shared_ptr_copied (x : cell) : cell :=
  {| payload := payload x; m_mutex1 := m_mutex1 x;
     use_count := S (use_count x);
     deletions := deletions x; made_by := made_by x |}.

(** Destroying (or reassigning) a [shared_ptr] decrements the use count
    and deletes the cell when the count reaches zero.  A release of a cell
    whose count is zero already would be recorded as one more deletion. *)
Definition shared_ptr_released (x : cell) : cell :=
  let n := pred (use_count x) in
  {| payload := payload x; m_mutex1 := m_mutex1 x;
     use_count := n;
     deletions := if n =? 0 then S (deletions x) else deletions x;
     made_by := made_by x |}.

Definition shared_ptr_copy (c : nat) (cs : list cell) : list cell :=
  alter shared_ptr_copied c cs.

Definition shared_ptr_release (c : nat) (cs : list cell) : list cell :=
  alter shared_ptr_released c cs.

(** ** Objects

    A pointer object has the data member [m_shptr] (empty after the object
    has been moved from) and its lock member; [m_lock] is the mutex that
    lock member owns, [None] when the class has no lock member or the
    member has been moved from. *)
Record pointer : Type := {
  class_of : pointer_class;
  m_shptr : option nat;
  m_lock : option nat
}.

(** The objects a program holds: requesters (whose [m_shptr] is never
    empty), pointers, pointers whose private constructor has been entered
    but has not returned yet, tombstones of destroyed objects, pointers
    whose destructor has destroyed the lock member and not yet [m_shptr],
    and the references and raw pointers to a cell that [operator*] and
    [operator->] of a pointer of class [k] have returned and the program
    has kept: they own nothing and hold no lock. *)
Inductive object : Type :=
  | Requester (k : requester_class) (shptr : nat)
  | Pointer (q : pointer)
  | Constructing (k : pointer_class) (shptr : nat)
  | Destroyed
  | Destructing (k : pointer_class) (shptr : option nat)
  | Reference (k : pointer_class) (c : nat).

Record state : Type := {
  cells : list cell;
  objects : list object
}.

Definition init : state := {| cells := []; objects := [] |}.

(** ** Member functions of the pointer classes *)

(** [is_valid()]: [m_shptr.operator bool()]. *)
Definition is_valid (q : pointer) : bool :=
  match m_shptr q with
  | Some _ => true
  | None => false
  end.

(** [operator bool()]: [m_shptr.operator bool()], without the validity
    check (it is commented out in every class). *)
Definition operator_bool (q : pointer) : bool :=
  match m_shptr q with
  | Some _ => true
  | None => false
  end.

(** [*shptr] for a [shared_ptr]: the cell it points to; dereferencing an
    empty [shared_ptr] is undefined. *)
Definition shared_ptr_deref (shptr : option nat) : outcome nat :=
  match shptr with
  | Some c => Returned c
  | None => Undefined
  end.

(** [operator*()]: throws unless [is_valid()], then [*m_shptr]. *)
Definition operator_star (q : pointer) : outcome nat :=
  if negb (is_valid q) then Thrown (invalid_pointer (class_of q))
  else shared_ptr_deref (m_shptr q).

(** [operator->()]: throws unless [is_valid()], then the
    address of [*m_shptr]. *)
Definition operator_arrow (q : pointer) : outcome nat :=
  if negb (is_valid q) then Thrown (invalid_pointer (class_of q))
  else shared_ptr_deref (m_shptr q).

(** The public members of a pointer class: the five declarations between
    [public:] and [private:]. *)
Inductive public_member : Type :=
  | public_move_constructor
  | public_destructor
  | public_operator_bool
  | public_operator_star
  | public_operator_arrow.

Definition outcome_map {A B : Type} (f : A -> B) (o : outcome A) : outcome B :=
  match o with
  | Returned a => Returned (f a)
  | Thrown e => Thrown e
  | Undefined => Undefined
  end.

(** The defaulted move constructor moves member by member: the new object
    takes [m_shptr] and the lock member's mutex, the source keeps neither. *)
Definition moved_from (q : pointer) : pointer :=
  {| class_of := class_of q; m_shptr := None; m_lock := None |}.

(** ** Lock members *)

(** Constructing the lock member from [shptr->m_mutex1]: [unique_lock]
    calls [lock()], [shared_lock] calls [lock_shared()]. *)
Definition lock_member_acquire (l : lock_member) (writer_waits : bool)
    (m : shared_timed_mutex) : option shared_timed_mutex :=
  match l with
  | m_unique_lock => lock m
  | m_shared_lock => lock_shared writer_waits m
  | no_lock_member => Some m
  end.

(** Destroying a lock member that owns the mutex: [unique_lock] calls
    [unlock()], [shared_lock] calls [unlock_shared()]. *)
Definition lock_member_release (l : lock_member) (m : shared_timed_mutex)
  : shared_timed_mutex :=
  match l with
  | m_unique_lock => unlock m
  | m_shared_lock => unlock_shared m
  | no_lock_member => m
  end.

Definition owned_mutex (l : lock_member) (c : nat) : option nat :=
  match l with
  | no_lock_member => None
  | _ => Some c
  end.

Definition release_mutex (l : lock_member) (c : nat) (cs : list cell)
  : list cell :=
  alter (fun x => with_mutex (lock_member_release l (m_mutex1 x)) x) c cs.

(** The destructor of a lock member unlocks only a mutex it owns; the
    destructor of a [shared_ptr] releases only a cell it points to. *)
Definition destroy_lock_member (l : lock_member) (owned : option nat)
    (cs : list cell) : list cell :=
  match owned with
  | Some c => release_mutex l c cs
  | None => cs
  end.

Definition destroy_shared_ptr (p : option nat) (cs : list cell) : list cell :=
  match p with
  | Some c => shared_ptr_release c cs
  | None => cs
  end.

(** ** Programs

    What a program can do with the header's public interface, one atomic
    step at a time.  Objects are named by their index in [objects].
    - [make k v]: the static factory of requester class [k]; the net effect
      of its body is one new cell, owned by one new requester.
    - [copy_requester r], [assign_requester dst src]: the defaulted copy
      constructor and the implicit copy assignment of a requester.
    - [call r f]: the member function [f] of requester [r] is called and
      enters the pointer's private constructor: the by-value parameter
      [shptr] and the member [m_shptr] are copy-constructed.
    - [complete p]: the constructor of [p] goes on: the lock member, if the
      class has one, is constructed from [shptr->m_mutex1], which is where
      the calling thread may have to wait; then the constructor returns
      and its parameter is destroyed.
    - [move_construct p]: a new pointer is move-constructed from [p].
    - [store p v]: [v] is assigned to the payload through [*p].
    - [destroy o]: the destructor of a requester or of a pointer; members
      are destroyed in reverse order of declaration, the lock member
      before [m_shptr].
    - [destroy_lock p], [destroy_shptr p]: the destructor of pointer [p] in
      two steps, between which other threads may run: first the lock
      member is destroyed, then [m_shptr].
    - [take_reference p]: the program keeps what [operator*] or
      [operator->] of pointer [p] returns, beyond the call.
    - [store_through r v]: [v] is assigned to the payload through the
      reference [r], whatever has become of the pointer it came from.  A
      const reference does not allow it; through a reference to a cell that
      has been deleted it is undefined, and not a step. *)
Inductive action : Type :=
  | make (k : requester_class) (v : T)
  | copy_requester (r : nat)
  | assign_requester (dst src : nat)
  | call (r : nat) (f : requester_method)
  | complete (p : nat)
  | move_construct (p : nat)
  | store (p : nat) (v : T)
  | destroy (o : nat)
  | destroy_lock (p : nat)
  | destroy_shptr (p : nat)
  | take_reference (p : nat)
  | store_through (r : nat) (v : T).

(** The four factory functions of the header, each the static factory of
    one requester class. *)
Definition make_asyncshared (v : T) : action :=
  make TAsyncSharedAccessRequester v.

Definition make_asyncsharedimmutable (v : T) : action :=
  make TAsyncSharedImmutableAccessRequester v.

Definition make_asyncsharedsimpleobjectyouaresurehasnomutablemembers (v : T)
  : action :=
  make PureRequester v.

Definition make_asyncsharedsimpleobjectyouaresurehasnomutablemembersimmutable
    (v : T) : action :=
  make PureImmutableRequester v.

(** A step changes the state, or cannot be taken yet because the thread
    has to wait for the mutex, or ends in an exception that leaves the
    state as it was, or is not a step of any program (the call does not
    compile, or names an object that does not exist, is destroyed or is
    still under construction). *)
Inductive result : Type :=
  | Ok (s : state)
  | Blocked
  | Throws (e : exception)
  | Rejected.

(** Whether the object is a pointer under construction whose lock member,
    of kind [l], will be constructed from the mutex of cell [c]. *)
Definition waits_for (l : lock_member) (c : nat) (o : object) : bool :=
  match o with
  | Constructing k c' =>
      bool_decide (c' = c) && bool_decide (lock_member_of k = l)
  | _ => false
  end.

(** A constructor that has been entered and wants the mutex of cell [c]
    exclusively counts as waiting for it, from the moment it is entered (the
    model does not tell a thread that has called [lock()] from one that is
    about to); whether that keeps shared owners out is up to the
    implementation. *)
Definition writer_waiting (s : state) (c : nat) : bool :=
  writers_first && existsb (waits_for m_unique_lock c) (objects s).

Definition new_cell (k : requester_class) (v : T) : cell :=
  {| payload := v; m_mutex1 := unlocked; use_count := 1; deletions := 0;
     made_by := k |}.

Definition step (s : state) (a : action) : result :=
  match a with
  | make k v =>
      Ok {| cells := cells s ++ [new_cell k v];
            objects := objects s ++ [Requester k (length (cells s))] |}
  | copy_requester r =>
      match objects s !! r with
      | Some (Requester k c) =>
          if usable (requester_declares k) copy_constructor then
            Ok {| cells := shared_ptr_copy c (cells s);
                  objects := objects s ++ [Requester k c] |}
          else Rejected
      | _ => Rejected
      end
  | assign_requester dst src =>
      match objects s !! dst, objects s !! src with
      | Some (Requester k c), Some (Requester k' c') =>
          if decide (k = k') then
            if usable (requester_declares k) copy_assignment then
              Ok {| cells := shared_ptr_release c (shared_ptr_copy c' (cells s));
                    objects := <[dst := Requester k c']> (objects s) |}
            else Rejected
          else Rejected
      | _, _ => Rejected
      end
  | call r f =>
      match objects s !! r with
      | Some (Requester k c) =>
          match member_function k f with
          | Some pk =>
              Ok {| cells := shared_ptr_copy c (shared_ptr_copy c (cells s));
                    objects := objects s ++ [Constructing pk c] |}
          | None => Rejected
          end
      | _ => Rejected
      end
  | complete p =>
      match objects s !! p with
      | Some (Constructing k c) =>
          match cells s !! c with
          | Some x =>
              match lock_member_acquire (lock_member_of k)
                      (writer_waiting s c) (m_mutex1 x) with
              | Some m =>
                  Ok {| cells :=
                          shared_ptr_release c (alter (with_mutex m) c (cells s));
                        objects :=
                          <[p := Pointer
                                   {| class_of := k; m_shptr := Some c;
                                      m_lock := owned_mutex (lock_member_of k) c |}]>
                            (objects s) |}
              | None => Blocked
              end
          | None => Rejected
          end
      | _ => Rejected
      end
  | move_construct p =>
      match objects s !! p with
      | Some (Pointer q) =>
          if usable (pointer_declares (class_of q)) move_constructor then
            Ok {| cells := cells s;
                  objects := <[p := Pointer (moved_from q)]> (objects s)
                               ++ [Pointer q] |}
          else Rejected
      | _ => Rejected
      end
  | store p v =>
      match objects s !! p with
      | Some (Pointer q) =>
          match dereference_type (class_of q) with
          | mutable_access =>
              match operator_star q with
              | Returned c =>
                  Ok {| cells := alter (with_payload v) c (cells s);
                        objects := objects s |}
              | Thrown e => Throws e
              | Undefined => Rejected
              end
          | const_access => Rejected
          end
      | _ => Rejected
      end
  | destroy o =>
      match objects s !! o with
      | Some (Requester k c) =>
          Ok {| cells := shared_ptr_release c (cells s);
                objects := <[o := Destroyed]> (objects s) |}
      | Some (Pointer q) =>
          Ok {| cells :=
                  destroy_shared_ptr (m_shptr q)
                    (destroy_lock_member (lock_member_of (class_of q))
                       (m_lock q) (cells s));
                objects := <[o := Destroyed]> (objects s) |}
      | _ => Rejected
      end
  | destroy_lock p =>
      match objects s !! p with
      | Some (Pointer q) =>
          Ok {| cells :=
                  destroy_lock_member (lock_member_of (class_of q))
                    (m_lock q) (cells s);
                objects :=
                  <[p := Destructing (class_of q) (m_shptr q)]> (objects s) |}
      | _ => Rejected
      end
  | destroy_shptr p =>
      match objects s !! p with
      | Some (Destructing k shptr) =>
          Ok {| cells := destroy_shared_ptr shptr (cells s);
                objects := <[p := Destroyed]> (objects s) |}
      | _ => Rejected
      end
  | take_reference p =>
      match objects s !! p with
      | Some (Pointer q) =>
          match operator_star q with
          | Returned c =>
              Ok {| cells := cells s;
                    objects := objects s ++ [Reference (class_of q) c] |}
          | Thrown e => Throws e
          | Undefined => Rejected
          end
      | _ => Rejected
      end
  | store_through r v =>
      match objects s !! r with
      | Some (Reference k c) =>
          match dereference_type k with
          | mutable_access =>
              match cells s !! c with
              | Some x =>
                  if deletions x =? 0 then
                    Ok {| cells := alter (with_payload v) c (cells s);
                          objects := objects s |}
                  else Rejected
              | None => Rejected
              end
          | const_access => Rejected
          end
      | _ => Rejected
      end
  end.

(** What a call of a public member gives back: the move constructor a new
    object, named by its index; the destructor nothing; the operators a
    [bool], a reference to a cell and the address of a cell. *)
Inductive value : Type :=
  | moved_to (p : nat)
  | nothing
  | boolean (b : bool)
  | reference_to (c : nat)
  | address_of (c : nat).

(** Calling the public member [f] on the pointer object [p]: what the call
    gives back and the state it leaves, or the exception it throws.  The
    move constructor (of a new object, from [p]) and the destructor are the
    steps [move_construct] and [destroy] of a program; the three operators
    leave the state as it is. *)
Definition invoke (s : state) (p : nat) (f : public_member)
  : outcome (value * state) :=
  match objects s !! p with
  | Some (Pointer q) =>
      match f with
      | public_move_constructor =>
          match step s (move_construct p) with
          | Ok s' => Returned (moved_to (length (objects s)), s')
          | Throws e => Thrown e
          | _ => Undefined
          end
      | public_destructor =>
          match step s (destroy p) with
          | Ok s' => Returned (nothing, s')
          | Throws e => Thrown e
          | _ => Undefined
          end
      | public_operator_bool => Returned (boolean (operator_bool q), s)
      | public_operator_star =>
          outcome_map (fun c => (reference_to c, s)) (operator_star q)
      | public_operator_arrow =>
          outcome_map (fun c => (address_of c, s)) (operator_arrow q)
      end
  | _ => Undefined
  end.

(** Reading the payload through [*p]. *)
Definition load (s : state) (q : pointer) : outcome (option T) :=
  outcome_map (fun c => payload <$> cells s !! c) (operator_star q).

(** The states a program can be in. *)
Inductive reachable : state -> Prop :=
  | reachable_init : reachable init
  | reachable_step (s s' : state) (a : action) :
      reachable s -> step s a = Ok s' -> reachable s'.

(** Running a sequence of steps, none of which waits, throws or is
    rejected. *)
Fixpoint run (s : state) (tr : list action) : option state :=
  match tr with
  | [] => Some s
  | a :: tr' =>
      match step s a with
      | Ok s' => run s' tr'
      | _ => None
      end
  end.

(** The state after a sequence of steps from the initial state (the initial
    state itself when the sequence cannot be run). *)
Definition after (tr : list action) : state :=
  match run init tr with
  | Some s => s
  | None => init
  end.

(** The state of every mutex, cell by cell. *)
Definition mutexes (s : state) : list shared_timed_mutex :=
  m_mutex1 <$> cells s.

(** ** Counting objects *)

(** The number of [shared_ptr]s to cell [c] inside an object: a pointer
    under construction holds two, its parameter and its member. *)
Definition refs (c : nat) (o : object) : nat :=
  match o with
  | Requester _ c' => if decide (c' = c) then 1 else 0
  | Pointer q => if decide (m_shptr q = Some c) then 1 else 0
  | Constructing _ c' => if decide (c' = c) then 2 else 0
  | Destroyed => 0
  | Destructing _ shptr => if decide (shptr = Some c) then 1 else 0
  | Reference _ _ => 0
  end.

(** Whether the object is a pointer whose lock member of kind [l] owns the
    mutex of cell [c]. *)
Definition holds (l : lock_member) (c : nat) (o : object) : nat :=
  match o with
  | Pointer q =>
      if decide (lock_member_of (class_of q) = l) then
        if decide (m_lock q = Some c) then 1 else 0
      else 0
  | _ => 0
  end.

(** Whether the object is a fully constructed, valid pointer of a class
    in [ks] to cell [c]. *)
Definition alive (ks : list pointer_class) (c : nat) (o : object) : nat :=
  match o with
  | Pointer q =>
      if decide (class_of q ∈ ks) then
        if decide (m_shptr q = Some c) then 1 else 0
      else 0
  | _ => 0
  end.

(** Whether the object is a pointer of a class in [ks] to cell [c] whose
    constructor has been entered and has not returned. *)
Definition constructing (ks : list pointer_class) (c : nat) (o : object)
  : nat :=
  match o with
  | Constructing k c' =>
      if decide (k ∈ ks) then if decide (c' = c) then 1 else 0 else 0
  | _ => 0
  end.

Definition count (f : object -> nat) (s : state) : nat :=
  sum_list_with f (objects s).

(** ** The invariant of reachable states

    [balanced x r u h]: the cell [x] is consistent with [r] owning
    [shared_ptr]s, [u] lock members holding its mutex exclusively and [h]
    lock members holding it shared.  The cell has been deleted exactly
    when nothing owns it, and then exactly once. *)
Definition balanced (x : cell) (r u h : nat) : Prop :=
  use_count x = r /\
  deletions x = (if r =? 0 then 1 else 0) /\
  u = (if writer (m_mutex1 x) then 1 else 0) /\
  h = readers (m_mutex1 x) /\
  (writer (m_mutex1 x) = true -> readers (m_mutex1 x) = 0).

Definition cell_ok (s : state) (c : nat) (x : cell) : Prop :=
  balanced x (count (refs c) s)
    (count (holds m_unique_lock c) s) (count (holds m_shared_lock c) s).

(** The class whose factory made cell [c], if the cell exists. *)
Definition maker (cs : list cell) (c : nat) : option requester_class :=
  made_by <$> cs !! c.

(** Every object points to a cell that has been made, by the factory of the
    requester class its own class is tied to; a pointer's lock member owns
    the mutex of the cell [m_shptr] points to, or nothing when [m_shptr]
    is empty. *)
Definition object_ok (cs : list cell) (o : object) : Prop :=
  match o with
  | Requester k c => maker cs c = Some k
  | Pointer q =>
      match m_shptr q with
      | Some c =>
          maker cs c = Some (friend_class (class_of q)) /\
          m_lock q = owned_mutex (lock_member_of (class_of q)) c
      | None => m_lock q = None
      end
  | Constructing k c => maker cs c = Some (friend_class k)
  | Destroyed => True
  | Destructing k shptr =>
      match shptr with
      | Some c => maker cs c = Some (friend_class k)
      | None => True
      end
  | Reference k c => maker cs c = Some (friend_class k)
  end.

Definition invariant (s : state) : Prop :=
  (forall c x, cells s !! c = Some x -> cell_ok s c x) /\
  (forall i o, objects s !! i = Some o -> object_ok (cells s) o).

End WithPayload.

Arguments payload {T} _.
Arguments m_mutex1 {T} _.
Arguments use_count {T} _.
Arguments deletions {T} _.
Arguments made_by {T} _.
Arguments with_payload {T} v x.
Arguments with_mutex {T} m x.
Arguments shared_ptr_copied {T} x.
Arguments shared_ptr_released {T} x.
Arguments shared_ptr_copy {T} c cs.
Arguments shared_ptr_release {T} c cs.
Arguments cells {T} _.
Arguments objects {T} _.
Arguments init {T}.
Arguments release_mutex {T} l c cs.
Arguments destroy_lock_member {T} l owned cs.
Arguments destroy_shared_ptr {T} p cs.
Arguments make {T} k v.
Arguments copy_requester {T} r.
Arguments assign_requester {T} dst src.
Arguments call {T} r f.
Arguments complete {T} p.
Arguments move_construct {T} p.
Arguments store {T} p v.
Arguments destroy {T} o.
Arguments destroy_lock {T} p.
Arguments destroy_shptr {T} p.
Arguments take_reference {T} p.
Arguments store_through {T} r v.
Arguments make_asyncshared {T} v.
Arguments make_asyncsharedimmutable {T} v.
Arguments make_asyncsharedsimpleobjectyouaresurehasnomutablemembers {T} v.
Arguments make_asyncsharedsimpleobjectyouaresurehasnomutablemembersimmutable {T} v.
Arguments Ok {T} s.
Arguments Blocked {T}.
Arguments Throws {T} e.
Arguments Rejected {T}.
Arguments new_cell {T} k v.
Arguments writer_waiting {T impl} s c.
Arguments step {T impl} s a.
Arguments invoke {T impl} s p f.
Arguments load {T} s q.
Arguments reachable {T impl} _.
Arguments reachable_init {T impl}.
Arguments reachable_step {T impl} s s' a _ _.
Arguments run {T impl} s tr.
Arguments after {T impl} tr.
Arguments mutexes {T} s.
Arguments count {T} f s.
Arguments balanced {T} x r u h.
Arguments cell_ok {T} s c x.
Arguments maker {T} cs c.
Arguments object_ok {T} cs o.
Arguments invariant {T} s.

(** ** Example programs, over a payload of type [nat] *)

(** The two implementations of the mutex, for the examples: one lets
    waiting writers go first, the other does not. *)
Definition writers_go_first : implementation :=
  {| writers_first := true |}.

Definition readers_go_first : implementation :=
  {| writers_first := false |}.

(** A live [TAsyncSharedPointer] (object 1) and a second one whose
    constructor has been entered (object 2). *)
Definition demo_exclusive : list (action nat) :=
  [make_asyncshared 0; call 0 ptr; complete 1; call 0 ptr].

(** The same with two [TAsyncSharedConstPointer]s. *)
Definition demo_const : list (action nat) :=
  [make_asyncshared 0; call 0 const_ptr; complete 1; call 0 const_ptr].

(** Two live readers of a pure cell (objects 1 and 2), a writer (object 3)
    and a third reader (object 4) under construction. *)
Definition demo_readers : list (action nat) :=
  [make_asyncsharedsimpleobjectyouaresurehasnomutablemembers 0;
   call 0 const_ptr; complete 1; call 0 const_ptr; complete 2;
   call 0 ptr; call 0 const_ptr].

(** A live pointer to a pure immutable cell and one under construction. *)
Definition demo_lock_free : list (action nat) :=
  [make_asyncsharedsimpleobjectyouaresurehasnomutablemembersimmutable 0;
   call 0 const_ptr; complete 1; call 0 const_ptr].

(** One live [TAsyncSharedPointer]. *)
Definition demo_pointer : list (action nat) :=
  [make_asyncshared 5; call 0 ptr; complete 1].

(** The same after a second pointer (object 2) has been move-constructed
    from it: object 1 is left invalid. *)
Definition demo_moved_from : list (action nat) :=
  demo_pointer ++ [move_construct 1].

(** A live pointer to an immutable cell and one under construction. *)
Definition demo_immutable : list (action nat) :=
  [make_asyncsharedimmutable 7; call 0 const_ptr; complete 1;
   call 0 const_ptr].

(** A cell from its creation to the destruction of the last object that
    points to it. *)
Definition demo_lifetime : list (action nat) :=
  [make_asyncshared 0; copy_requester 0; call 1 ptr; destroy 0; complete 2;
   destroy 1; move_construct 2; destroy 2; destroy 3].


(** The last owner of a cell, a pointer, destroyed in two steps. *)
Definition demo_two_steps : list (action nat) :=
  [make_asyncshared 0; call 0 ptr; complete 1; destroy 0;
   destroy_lock 1; destroy_shptr 1].

End AsyncShared.

(** * Programs over [TRefCountedPointer] *)

Module RefCountedProgram.

Import RefCounted.

Section WithTarget.

(** The target type [X], with its destructor. *)
Variable X : Type.

Context {target : Target X}.

(** The free store of holders, and the pointer objects of the program, named
    by their index; a destroyed pointer object leaves [None] behind. *)
Record state : Type := {
  holders : free_store X;
  pointers : list (option TRefCountedPointer)
}.

Definition init : state := {| holders := []; pointers := [] |}.

(** What a program does with the class, one call at a time:
    - [construct], [construct_from_nullptr]: the two null constructors;
    - [make x]: the static [make_refcounted], whose local pointer is the
      result (copying it out and destroying it gives the same counter);
    - [copy r]: the copy constructor;
    - [assign dst src]: [operator=], where the address test [this != &r]
      compares the two objects;
    - [assign_nullptr dst]: the assignment of [nullptr], through a temporary
      built by the [nullptr_t] constructor and destroyed afterwards;
    - [call_clear i]: [clear()];
    - [destroy i]: the destructor. *)
Inductive action : Type :=
  | construct
  | construct_from_nullptr
  | make (x : X)
  | copy (r : nat)
  | assign (dst src : nat)
  | assign_nullptr (dst : nat)
  | call_clear (i : nat)
  | destroy (i : nat).

(** The pointer object [i], when it exists and has not been destroyed. *)
Definition pointer_at (s : state) (i : nat) : option TRefCountedPointer :=
  match pointers s !! i with
  | Some (Some p) => Some p
  | _ => None
  end.

Definition step (s : state) (a : action) : option state :=
  match a with
  | construct =>
      Some {| holders := holders s;
              pointers := pointers s ++ [Some TRefCountedPointer_default] |}
  | construct_from_nullptr =>
      Some {| holders := holders s;
              pointers := pointers s ++ [Some TRefCountedPointer_nullptr] |}
  | make x =>
      let '(h, p) := make_refcounted x (holders s) in
      Some {| holders := h; pointers := pointers s ++ [Some p] |}
  | copy r =>
      match pointer_at s r with
      | Some p =>
          let '(h, q) := copy_constructor p (holders s) in
          Some {| holders := h; pointers := pointers s ++ [Some q] |}
      | None => None
      end
  | assign dst src =>
      match pointer_at s dst, pointer_at s src with
      | Some p, Some r =>
          let '(h, p') :=
            operator_assign (bool_decide (dst = src)) p r (holders s) in
          Some {| holders := h; pointers := <[dst := Some p']> (pointers s) |}
      | _, _ => None
      end
  | assign_nullptr dst =>
      match pointer_at s dst with
      | Some p =>
          let tmp := TRefCountedPointer_nullptr in
          let '(h, p') := operator_assign false p tmp (holders s) in
          Some {| holders := destructor tmp h;
                  pointers := <[dst := Some p']> (pointers s) |}
      | None => None
      end
  | call_clear i =>
      match pointer_at s i with
      | Some p =>
          let '(h, p') := clear p (holders s) in
          Some {| holders := h; pointers := <[i := Some p']> (pointers s) |}
      | None => None
      end
  | destroy i =>
      match pointer_at s i with
      | Some p =>
          Some {| holders := destructor p (holders s);
                  pointers := <[i := None]> (pointers s) |}
      | None => None
      end
  end.

Inductive reachable : state -> Prop :=
  | reachable_init : reachable init
  | reachable_step (s s' : state) (a : action) :
      reachable s -> step s a = Some s' -> reachable s'.

Fixpoint run (s : state) (tr : list action) : option state :=
  match tr with
  | [] => Some s
  | a :: tr' =>
      match step s a with
      | Some s' => run s' tr'
      | None => None
      end
  end.

Definition after (tr : list action) : state :=
  match run init tr with
  | Some s => s
  | None => init
  end.

(** Whether a pointer object points to the holder at address [a], and the
    number of pointer objects that do. *)
Definition points_to (a : nat) (p : option TRefCountedPointer) : nat :=
  match p with
  | Some q =>
      if decide (m_ref_with_target_obj_ptr q = Some a) then 1 else 0
  | None => 0
  end.

Definition owners (a : nat) (s : state) : nat :=
  sum_list_with (points_to a) (pointers s).

(** One when the pointer [c] is the address [a]. *)
Definition one_if (c : option nat) (a : nat) : nat :=
  if decide (c = Some a) then 1 else 0.

(** A slot of the free store is consistent with [n] owners: a live holder
    counts exactly its owners and has at least one; a deleted holder, or an
    address never allocated, has none. *)
Definition slot_ok (slot : option (option (TRefWithTargetObj X))) (n : nat)
  : Prop :=
  match slot with
  | Some (Some o) => m_counter o = Z.of_nat n /\ 0 < n
  | _ => n = 0
  end.

Definition invariant (s : state) : Prop :=
  forall a : nat, slot_ok (holders s !! a) (owners a s).

(** The program has constructed fewer pointer objects than the largest
    [int]: no counter can have overflowed. *)
Definition countable (s : state) : Prop :=
  (Z.of_nat (length (pointers s)) < INT_MAX)%Z.

End WithTarget.

Arguments holders {X} _.
Arguments pointers {X} _.
Arguments init {X}.
Arguments construct {X}.
Arguments construct_from_nullptr {X}.
Arguments make {X} x.
Arguments copy {X} r.
Arguments assign {X} dst src.
Arguments assign_nullptr {X} dst.
Arguments call_clear {X} i.
Arguments destroy {X} i.
Arguments pointer_at {X} s i.
Arguments step {X target} s a.
Arguments reachable {X target} _.
Arguments reachable_init {X target}.
Arguments reachable_step {X target} s s' a _ _.
Arguments run {X target} s tr.
Arguments after {X target} tr.
Arguments owners {X} a s.
Arguments slot_ok {X} slot n.
Arguments invariant {X} s.
Arguments countable {X} s.

(** The program of [testBehaviour], up to the end of the inner block: [a]
    is object 0, [hold] 1, [b] 2, [c] 3, [nil] 4 and [a2] 5. *)
Definition test_behaviour : list (action nat) :=
  [make 1; construct; make 2; make 3; construct_from_nullptr; copy 0;
   assign 1 2; destroy 5; destroy 4; destroy 3; destroy 2].

End RefCountedProgram.

(** * Properties of mserefcounted.h *)

Module RefCountedFacts.

Import RefCounted.

Section Facts.

Variable X : Type.

Context {target : Target X}.

(** Assigning a null pointer, and so [clear()], leaves the holder pointer
    null, whatever the pointer pointed to and whatever the store holds. *)
Lemma null_pointer_is_null (o : null_origin X) :
  m_ref_with_target_obj_ptr (null_pointer o) = None.
Proof.
  destruct o as [| |p h|p h]; reflexivity.
Qed.

(** C10: on every null [TRefCountedPointer], whether it was
    default-constructed, constructed from [nullptr], cleared or assigned
    [nullptr], [operator*] and [operator->] throw [std::out_of_range], and
    [get()] returns [nullptr] and [operator bool] false without throwing. *)
Theorem null_dereference_throws (o : null_origin X) :
  operator_star (null_pointer o)
    = Thrown (out_of_range
        "attempt to dereference null pointer - mse::TRefCountedPointer") /\
  operator_arrow (null_pointer o)
    = Thrown (out_of_range
        "attempt to dereference null pointer - mse::TRefCountedPointer") /\
  get (null_pointer o) = None /\
  operator_bool (null_pointer o) = false.
Proof.
  pose proof (null_pointer_is_null o) as Hnull.
  unfold operator_star, operator_arrow, operator_bool, get.
  rewrite Hnull. repeat split; reflexivity.
Qed.

End Facts.

(** The theorem at a pointer that owned a target until it was cleared. *)
Lemma null_dereference_throws_witness :
  get (null_pointer (target := plain_target nat)
         (cleared {| m_ref_with_target_obj_ptr := Some 0 |}
            [Some (CRefCounter 5%nat)]))
  = None.
Proof.
  destruct (null_dereference_throws nat (target := plain_target nat)
              (cleared {| m_ref_with_target_obj_ptr := Some 0 |}
                 [Some (CRefCounter 5%nat)])) as (_ & _ & Hget & _).
  exact Hget.
Defined.

End RefCountedFacts.

(** * Properties of mseasyncshared.h *)

Module AsyncSharedFacts.

Import AsyncShared.

(** ** Sums over a list that is extended or updated at one index *)

Section Counting.

Context {A : Type} (f : A -> nat).

Lemma sum_list_with_snoc (l : list A) (x : A) :
  sum_list_with f (l ++ [x]) = sum_list_with f l + f x.
Proof. rewrite sum_list_with_app. simpl. lia. Qed.

Lemma sum_list_with_insert (l : list A) (i : nat) (x y : A) :
  l !! i = Some x ->
  sum_list_with f (<[i:=y]> l) + f x = sum_list_with f l + f y.
Proof.
  revert i. induction l as [|a l IH]; intros [|i] Hi; simpl in *;
    try discriminate.
  - injection Hi as ->. lia.
  - specialize (IH i Hi). lia.
Qed.

Lemma sum_list_with_lookup (l : list A) (i : nat) (x : A) :
  l !! i = Some x -> f x <= sum_list_with f l.
Proof.
  intros Hi. apply sum_list_with_in. apply list_elem_of_lookup. eauto.
Qed.

Lemma sum_list_with_zero (l : list A) :
  (forall i x, l !! i = Some x -> f x = 0) -> sum_list_with f l = 0.
Proof.
  induction l as [|a l IH]; intros H; simpl; [reflexivity|].
  rewrite (H 0 a eq_refl), IH; [reflexivity|].
  intros i x Hi. apply (H (S i) x Hi).
Qed.

Lemma sum_list_with_insert_split (l : list A) (i : nat) (a b : A) :
  l !! i = Some a ->
  exists rest, sum_list_with f l = rest + f a /\
               sum_list_with f (<[i:=b]> l) = rest + f b.
Proof.
  intros Hi. exists (sum_list_with f l - f a).
  pose proof (sum_list_with_insert l i a b Hi).
  pose proof (sum_list_with_lookup l i a Hi). lia.
Qed.

Lemma sum_list_with_pos (l : list A) :
  0 < sum_list_with f l -> exists i a, l !! i = Some a /\ 0 < f a.
Proof.
  induction l as [|y l IH]; simpl; intros H; [lia|].
  destruct (f y) eqn:E.
  - destruct (IH H) as (i & a & Hi & Ha). exists (S i), a. auto.
  - exists 0, y. simpl. split; [reflexivity|lia].
Qed.

Lemma sum_list_with_le (g : A -> nat) (l : list A) :
  (forall i a, l !! i = Some a -> f a <= g a) ->
  sum_list_with f l <= sum_list_with g l.
Proof.
  induction l as [|y l IH]; intros H; simpl; [lia|].
  pose proof (H 0 y eq_refl). 
  assert (sum_list_with f l <= sum_list_with g l); [|lia].
  apply IH. intros i a Hi. apply (H (S i) a Hi).
Qed.

End Counting.

Section Facts.

Variable T : Type.

Context {impl : implementation}.

Implicit Types (s : state T) (x : cell T) (cs : list (cell T)).
Implicit Types (o : object) (q : pointer) (k : pointer_class).

(** ** Writing the payload does not move the balance of a cell *)

Lemma balanced_payload x v r u h :
  balanced x r u h -> balanced (with_payload v x) r u h.
Proof. unfold balanced. simpl. tauto. Qed.

(** ** Cells keep their maker *)

Lemma maker_alter (f : cell T -> cell T) cs (c c' : nat) :
  (forall x, made_by (f x) = made_by x) ->
  maker (alter f c cs) c' = maker cs c'.
Proof.
  intros Hf. unfold maker. destruct (decide (c = c')) as [->|Hne].
  - rewrite list_lookup_alter_eq. destruct (cs !! c'); simpl; [|reflexivity].
    now rewrite Hf.
  - now rewrite list_lookup_alter_ne.
Qed.

Lemma maker_snoc cs x (c : nat) (r : requester_class) :
  maker cs c = Some r -> maker (cs ++ [x]) c = Some r.
Proof.
  unfold maker. intros H. destruct (cs !! c) as [y|] eqn:E; [|discriminate].
  now rewrite (lookup_app_l_Some _ _ _ _ E).
Qed.

Lemma maker_bound cs (c : nat) (r : requester_class) :
  maker cs c = Some r -> c < length cs.
Proof.
  unfold maker. destruct (cs !! c) eqn:E; [|discriminate].
  intros _. eapply lookup_lt_Some, E.
Qed.

Lemma object_ok_mono cs cs' o :
  (forall c r, maker cs c = Some r -> maker cs' c = Some r) ->
  object_ok cs o -> object_ok cs' o.
Proof.
  intros H. destruct o as [r c|q|k c| |k [c|]|k c]; simpl; auto.
  destruct (m_shptr q); [|auto]. intros [? ?]. auto.
Qed.

Lemma lookup_alter_Some (f : cell T -> cell T) cs (c c' : nat) x' :
  alter f c cs !! c' = Some x' ->
  exists x, cs !! c' = Some x /\ x' = if decide (c = c') then f x else x.
Proof.
  destruct (decide (c = c')) as [->|Hne].
  - rewrite list_lookup_alter_eq. destruct (cs !! c') as [x|]; [|discriminate].
    simpl. intros [= <-]. eauto.
  - rewrite list_lookup_alter_ne by assumption. eauto.
Qed.

(** An object that is well-formed has nothing to do with a cell that does
    not exist yet. *)
Lemma refs_fresh cs o (c : nat) :
  object_ok cs o -> length cs <= c -> refs c o = 0.
Proof.
  destruct o as [r c'|q|k c'| |k sp|k c']; simpl; intros Hok Hc;
    try reflexivity.
  - apply maker_bound in Hok. case_decide; [lia|reflexivity].
  - case_decide as E; [|reflexivity]. rewrite E in Hok.
    destruct Hok as [Hok _]. apply maker_bound in Hok. lia.
  - apply maker_bound in Hok. case_decide; [lia|reflexivity].
  - case_decide as E; [|reflexivity]. rewrite E in Hok.
    apply maker_bound in Hok. lia.
Qed.

Lemma holds_fresh cs o (l : lock_member) (c : nat) :
  object_ok cs o -> length cs <= c -> holds l c o = 0.
Proof.
  destruct o as [r c'|q|k c'| |k sp|k c']; simpl; intros Hok Hc;
    try reflexivity.
  repeat case_decide; try reflexivity.
  destruct (m_shptr q) as [c'|] eqn:E; [|congruence].
  destruct Hok as [Hok Hl]. apply maker_bound in Hok.
  destruct (lock_member_of (class_of q)); simpl in Hl; simplify_eq; lia.
Qed.


Ltac split_count f l i a b H :=
  let rest := fresh "rest" in
  let E1 := fresh "Eold" in
  let E2 := fresh "Enew" in
  destruct (sum_list_with_insert_split f l i a b H) as (rest & E1 & E2);
  simpl in E1, E2.

Lemma step_make_invariant s s' r v :
  invariant s -> step s (make r v) = Ok s' -> invariant s'.
Proof.
  intros [Hc Ho] [= <-]. split; simpl.
  - intros c x' Hx'. unfold cell_ok, count. simpl.
    rewrite !sum_list_with_snoc. simpl.
    apply lookup_snoc_Some in Hx' as [[Hlt Hx]|[-> <-]].
    + case_decide; [lia|]. rewrite !Nat.add_0_r. exact (Hc c x' Hx).
    + case_decide; [|congruence].
      rewrite !sum_list_with_zero; simpl.
      * unfold balanced. simpl. repeat split; auto.
      * intros i o Hi. eapply holds_fresh; eauto.
      * intros i o Hi. eapply holds_fresh; eauto.
      * intros i o Hi. eapply refs_fresh; eauto.
  - intros i o Hi. apply lookup_snoc_Some in Hi as [[Hlt Hi]|[-> <-]].
    + eapply object_ok_mono; [|eapply Ho, Hi]. intros; now apply maker_snoc.
    + simpl. unfold maker. now rewrite list_lookup_middle.
Qed.


Ltac arith_cases :=
  repeat match goal with
    | H : _ /\ _ |- _ => destruct H
    | H : context [?a =? ?b] |- _ => destruct (Nat.eqb_spec a b)
    | |- context [?a =? ?b] => destruct (Nat.eqb_spec a b)
    | H : context [writer ?m] |- _ =>
        lazymatch type of H with
        | writer _ = _ => fail
        | _ => destruct (writer m) eqn:?
        end
    | |- context [writer ?m] => destruct (writer m) eqn:?
    | H : true = true -> _ |- _ => specialize (H eq_refl)
    | H : false = true -> _ |- _ => clear H
    end.

Ltac crush_balance :=
  unfold cell_ok, count, balanced, lock_member_acquire, lock_member_release,
    lock, lock_shared, unlock, unlock_shared in *;
  simpl in *; simplify_eq;
  repeat (progress (arith_cases; simpl in *; simplify_eq));
  repeat split; try discriminate; try congruence; try lia.

Lemma step_copy_requester_invariant s s' (r : nat) :
  invariant s -> step s (copy_requester r) = Ok s' -> invariant s'.
Proof.
  intros [Hc Ho] Hstep. simpl in Hstep.
  destruct (objects s !! r) as [[k c0| | | | | ]|] eqn:Hr; simplify_eq.
  pose proof (Ho _ _ Hr) as Hk. simpl in Hk.
  split; simpl.
  - intros c x' Hx'. apply lookup_alter_Some in Hx' as (x & Hx & ->).
    specialize (Hc c x Hx). unfold cell_ok, count in *. simpl.
    rewrite !sum_list_with_snoc. simpl.
    pose proof (sum_list_with_lookup (refs c) _ _ _ Hr) as Hle. simpl in Hle.
    repeat case_decide; subst; try congruence; crush_balance.
  - intros i o Hi. apply lookup_snoc_Some in Hi as [[Hlt Hi]|[-> <-]].
    + eapply object_ok_mono; [|eapply Ho, Hi]. intros c r'.
      unfold shared_ptr_copy. now rewrite maker_alter.
    + simpl. unfold shared_ptr_copy. now rewrite maker_alter.
Qed.


Ltac makers :=
  unfold destroy_shared_ptr, destroy_lock_member;
  unfold shared_ptr_copy, shared_ptr_release, release_mutex;
  repeat case_match;
  repeat (rewrite maker_alter by (intros; reflexivity));
  auto.

Ltac old_objects Ho :=
  match goal with
  | Hi : _ !! _ = Some ?o |- object_ok _ ?o =>
      eapply object_ok_mono; [|eapply Ho, Hi]; intros; makers
  end.

Lemma step_assign_requester_invariant s s' (dst src : nat) :
  invariant s -> step s (assign_requester dst src) = Ok s' -> invariant s'.
Proof.
  intros [Hc Ho] Hstep. simpl in Hstep.
  destruct (objects s !! dst) as [[k c0| | | | | ]|] eqn:Hd; simplify_eq.
  destruct (objects s !! src) as [[k' c1| | | | | ]|] eqn:Hs; simplify_eq.
  case_decide; simplify_eq.
  pose proof (Ho _ _ Hd) as Hk0. pose proof (Ho _ _ Hs) as Hk1.
  simpl in Hk0, Hk1. split; simpl.
  - intros c x' Hx'.
    apply lookup_alter_Some in Hx' as (x1 & Hx1 & ->).
    apply lookup_alter_Some in Hx1 as (x & Hx & ->).
    specialize (Hc c x Hx). unfold cell_ok, count in *. simpl.
    pose proof (sum_list_with_lookup (refs c) _ _ _ Hs) as Hle. simpl in Hle.
    split_count (refs c) (objects s) dst (Requester k' c0) (Requester k' c1) Hd.
    split_count (holds m_unique_lock c) (objects s) dst
      (Requester k' c0) (Requester k' c1) Hd.
    split_count (holds m_shared_lock c) (objects s) dst
      (Requester k' c0) (Requester k' c1) Hd.
    rewrite Enew, Enew0, Enew1. rewrite Eold, Eold0, Eold1 in Hc.
    rewrite Eold in Hle.
    repeat case_decide; subst; try congruence; crush_balance.
  - intros i o Hi. apply list_lookup_insert_Some in Hi as [(-> & <- & Hlt)|[Hne Hi]].
    + simpl. makers.
    + old_objects Ho.
Qed.

Lemma step_call_invariant s s' (r : nat) (f : requester_method) :
  invariant s -> step s (call r f) = Ok s' -> invariant s'.
Proof.
  intros [Hc Ho] Hstep. simpl in Hstep.
  destruct (objects s !! r) as [[k c0| | | | | ]|] eqn:Hr; simplify_eq.
  destruct (member_function k f) as [pk|] eqn:Hf; simplify_eq.
  pose proof (Ho _ _ Hr) as Hk. simpl in Hk.
  split; simpl.
  - intros c x' Hx'.
    apply lookup_alter_Some in Hx' as (x1 & Hx1 & ->).
    apply lookup_alter_Some in Hx1 as (x & Hx & ->).
    specialize (Hc c x Hx). unfold cell_ok, count in *. simpl.
    rewrite !sum_list_with_snoc. simpl.
    pose proof (sum_list_with_lookup (refs c) _ _ _ Hr) as Hle. simpl in Hle.
    repeat case_decide; subst; try congruence; crush_balance.
  - intros i o Hi. apply lookup_snoc_Some in Hi as [[Hlt Hi]|[-> <-]].
    + old_objects Ho.
    + simpl. makers. rewrite Hk. f_equal.
      destruct k, f; simpl in Hf; simplify_eq; reflexivity.
Qed.


Ltac split_counts c l i a b H :=
  let Hle := fresh "Hle" in
  pose proof (sum_list_with_lookup (refs c) l i a H) as Hle; simpl in Hle;
  split_count (refs c) l i a b H;
  split_count (holds m_unique_lock c) l i a b H;
  split_count (holds m_shared_lock c) l i a b H.

(** A lock member that is granted with a writer waiting is granted without
    one as well. *)
Lemma lock_member_acquire_granted (l : lock_member) (w : bool)
    (m m' : shared_timed_mutex) :
  lock_member_acquire l w m = Some m' ->
  lock_member_acquire l false m = Some m'.
Proof.
  destruct l, w; simpl; auto. unfold lock_shared.
  rewrite orb_true_r. discriminate.
Qed.

Lemma step_complete_invariant s s' (p : nat) :
  invariant s -> step s (complete p) = Ok s' -> invariant s'.
Proof.
  intros [Hc Ho] Hstep. simpl in Hstep.
  destruct (objects s !! p) as [[| |k c0| | | ]|] eqn:Hp; simplify_eq.
  destruct (cells s !! c0) as [x0|] eqn:Hx0; simplify_eq.
  destruct (lock_member_acquire _ _ _) as [m|] eqn:Hm; simplify_eq.
  apply lock_member_acquire_granted in Hm.
  pose proof (Ho _ _ Hp) as Hk. simpl in Hk.
  split; simpl.
  - intros c x' Hx'.
    apply lookup_alter_Some in Hx' as (x1 & Hx1 & ->).
    apply lookup_alter_Some in Hx1 as (x & Hx & ->).
    specialize (Hc c x Hx). unfold cell_ok, count in *. simpl.
    match goal with
    | |- context [<[p := ?b]> _] =>
        split_counts c (objects s) p (Constructing k c0) b Hp
    end.
    rewrite Enew, Enew0, Enew1.
    rewrite Eold, Eold0, Eold1 in Hc. rewrite Eold in Hle.
    repeat case_decide; subst; try congruence; simplify_eq;
      destruct (lock_member_of k) eqn:El; simplify_eq; crush_balance.
  - intros i o Hi.
    apply list_lookup_insert_Some in Hi as [(-> & <- & Hlt)|[Hne Hi]].
    + simpl. split; [|reflexivity]. makers.
    + old_objects Ho.
Qed.


Lemma step_move_construct_invariant s s' (p : nat) :
  invariant s -> step s (move_construct p) = Ok s' -> invariant s'.
Proof.
  intros [Hc Ho] Hstep. simpl in Hstep.
  destruct (objects s !! p) as [[|q| | | | ]|] eqn:Hp; simplify_eq.
  pose proof (Ho _ _ Hp) as Hq. simpl in Hq.
  split; simpl.
  - intros c x Hx. specialize (Hc c x Hx). unfold cell_ok, count in *. simpl.
    rewrite !sum_list_with_snoc.
    split_counts c (objects s) p (Pointer q) (Pointer (moved_from q)) Hp.
    rewrite Enew, Enew0, Enew1. rewrite Eold, Eold0, Eold1 in Hc.
    simpl. repeat case_decide; subst; try congruence; simplify_eq;
      rewrite ?Nat.add_0_r in *; try assumption.
  - intros i o Hi. apply lookup_snoc_Some in Hi as [[Hlt Hi]|[-> <-]].
    + apply list_lookup_insert_Some in Hi as [(-> & <- & Hlt')|[Hne Hi]].
      * reflexivity.
      * eapply Ho, Hi.
    + exact Hq.
Qed.

Lemma step_store_invariant s s' (p : nat) (v : T) :
  invariant s -> step s (store p v) = Ok s' -> invariant s'.
Proof.
  intros [Hc Ho] Hstep. simpl in Hstep.
  destruct (objects s !! p) as [[|q| | | | ]|] eqn:Hp; simplify_eq.
  destruct (dereference_type _); simplify_eq.
  destruct (operator_star q) as [c0| |]; simplify_eq.
  split; simpl.
  - intros c x' Hx'. apply lookup_alter_Some in Hx' as (x & Hx & ->).
    specialize (Hc c x Hx). unfold cell_ok, count in *. simpl.
    case_decide; [apply balanced_payload|]; assumption.
  - intros i o Hi. old_objects Ho.
Qed.


Lemma step_destroy_invariant s s' (i0 : nat) :
  invariant s -> step s (destroy i0) = Ok s' -> invariant s'.
Proof.
  intros [Hc Ho] Hstep. simpl in Hstep.
  destruct (objects s !! i0) as [[r c0|q| | | | ]|] eqn:Hp; simplify_eq.
  - (* a requester *)
    pose proof (Ho _ _ Hp) as Hk. simpl in Hk. split; simpl.
    + intros c x' Hx'. apply lookup_alter_Some in Hx' as (x & Hx & ->).
      specialize (Hc c x Hx). unfold cell_ok, count in *. simpl.
      split_counts c (objects s) i0 (Requester r c0) Destroyed Hp.
      rewrite Enew, Enew0, Enew1. rewrite Eold, Eold0, Eold1 in Hc.
      rewrite Eold in Hle.
      repeat case_decide; subst; try congruence; crush_balance.
    + intros i o Hi.
      apply list_lookup_insert_Some in Hi as [(-> & <- & Hlt)|[Hne Hi]].
      * exact I.
      * old_objects Ho.
  - (* a pointer *)
    pose proof (Ho _ _ Hp) as Hq. simpl in Hq. split; simpl.
    + intros c x' Hx'.
      assert (exists x, cells s !! c = Some x /\
                x' = (if decide (m_shptr q = Some c)
                      then shared_ptr_released else id)
                       ((if decide (m_lock q = Some c)
                         then fun x => with_mutex
                                (lock_member_release
                                   (lock_member_of (class_of q)) (m_mutex1 x)) x
                         else id) x)) as (x & Hx & ->).
      { unfold destroy_shared_ptr, destroy_lock_member, shared_ptr_release,
          release_mutex in Hx'.
        destruct (m_shptr q) as [c1|], (m_lock q) as [c2|];
          repeat (apply lookup_alter_Some in Hx' as (? & Hx' & ->));
          eexists; (split; [eassumption|]);
          repeat case_decide; simplify_eq; reflexivity. }
      specialize (Hc c x Hx). unfold cell_ok, count in *. simpl.
      split_counts c (objects s) i0 (Pointer q) Destroyed Hp.
      rewrite Enew, Enew0, Enew1. rewrite Eold, Eold0, Eold1 in Hc.
      rewrite Eold in Hle.
      destruct (m_shptr q) as [c1|] eqn:Es; [destruct Hq as [Hq Hl]|];
        rewrite ?Hl, ?Hq in *;
        destruct (lock_member_of (class_of q)) eqn:El; simpl in *;
        repeat case_decide; subst; try congruence; simplify_eq;
        crush_balance.
    + intros i o Hi.
      apply list_lookup_insert_Some in Hi as [(-> & <- & Hlt)|[Hne Hi]].
      * exact I.
      * old_objects Ho.
Qed.

Lemma step_destroy_lock_invariant s s' (p : nat) :
  invariant s -> step s (destroy_lock p) = Ok s' -> invariant s'.
Proof.
  intros [Hc Ho] Hstep. simpl in Hstep.
  destruct (objects s !! p) as [[|q| | | | ]|] eqn:Hp; simplify_eq.
  pose proof (Ho _ _ Hp) as Hq. simpl in Hq. split; simpl.
  - intros c x' Hx'.
    assert (exists x, cells s !! c = Some x /\
              x' = (if decide (m_lock q = Some c)
                    then fun x => with_mutex
                           (lock_member_release
                              (lock_member_of (class_of q)) (m_mutex1 x)) x
                    else id) x) as (x & Hx & ->).
    { unfold destroy_lock_member, release_mutex in Hx'.
      destruct (m_lock q) as [c2|];
        repeat (apply lookup_alter_Some in Hx' as (? & Hx' & ->));
        eexists; (split; [eassumption|]);
        repeat case_decide; simplify_eq; reflexivity. }
    specialize (Hc c x Hx). unfold cell_ok, count in *. simpl.
    split_counts c (objects s) p (Pointer q)
      (Destructing (class_of q) (m_shptr q)) Hp.
    rewrite Enew, Enew0, Enew1. rewrite Eold, Eold0, Eold1 in Hc.
    rewrite Eold in Hle.
    destruct (m_shptr q) as [c1|] eqn:Es; [destruct Hq as [Hq Hl]|];
      rewrite ?Hl, ?Hq in *;
      destruct (lock_member_of (class_of q)) eqn:El; simpl in *;
      repeat case_decide; subst; try congruence; simplify_eq;
      crush_balance.
  - intros i o Hi.
    apply list_lookup_insert_Some in Hi as [(-> & <- & Hlt)|[Hne Hi]].
    + simpl. destruct (m_shptr q) as [c1|]; [|exact I].
      destruct Hq as [Hq _]. makers.
    + old_objects Ho.
Qed.

Lemma step_destroy_shptr_invariant s s' (p : nat) :
  invariant s -> step s (destroy_shptr p) = Ok s' -> invariant s'.
Proof.
  intros [Hc Ho] Hstep. simpl in Hstep.
  destruct (objects s !! p) as [[| | | |k sp| ]|] eqn:Hp; simplify_eq.
  pose proof (Ho _ _ Hp) as Hq. simpl in Hq. split; simpl.
  - intros c x' Hx'.
    assert (exists x, cells s !! c = Some x /\
              x' = (if decide (sp = Some c)
                    then shared_ptr_released else id) x) as (x & Hx & ->).
    { unfold destroy_shared_ptr, shared_ptr_release in Hx'.
      destruct sp as [c1|];
        repeat (apply lookup_alter_Some in Hx' as (? & Hx' & ->));
        eexists; (split; [eassumption|]);
        repeat case_decide; simplify_eq; reflexivity. }
    specialize (Hc c x Hx). unfold cell_ok, count in *. simpl.
    split_counts c (objects s) p (Destructing k sp) Destroyed Hp.
    rewrite Enew, Enew0, Enew1. rewrite Eold, Eold0, Eold1 in Hc.
    rewrite Eold in Hle.
    repeat case_decide; subst; try congruence; simplify_eq; crush_balance.
  - intros i o Hi.
    apply list_lookup_insert_Some in Hi as [(-> & <- & Hlt)|[Hne Hi]].
    + exact I.
    + old_objects Ho.
Qed.

Lemma step_take_reference_invariant s s' (p : nat) :
  invariant s -> step s (take_reference p) = Ok s' -> invariant s'.
Proof.
  intros [Hc Ho] Hstep. simpl in Hstep.
  destruct (objects s !! p) as [[|q| | | | ]|] eqn:Hp; simplify_eq.
  destruct (operator_star q) as [c0| |] eqn:Hstar; simplify_eq.
  pose proof (Ho _ _ Hp) as Hq. simpl in Hq.
  split; simpl.
  - intros c x Hx. specialize (Hc c x Hx). unfold cell_ok, count in *. simpl.
    rewrite !sum_list_with_snoc. simpl. now rewrite !Nat.add_0_r.
  - intros i o Hi. apply lookup_snoc_Some in Hi as [[Hlt Hi]|[-> <-]].
    + eapply Ho, Hi.
    + simpl. unfold operator_star, is_valid, shared_ptr_deref in Hstar.
      destruct (m_shptr q) as [c1|]; simpl in Hstar; simplify_eq.
      apply Hq.
Qed.

Lemma step_store_through_invariant s s' (r : nat) (v : T) :
  invariant s -> step s (store_through r v) = Ok s' -> invariant s'.
Proof.
  intros [Hc Ho] Hstep. simpl in Hstep.
  destruct (objects s !! r) as [[| | | | |k c0]|] eqn:Hr; simplify_eq.
  destruct (dereference_type _); simplify_eq.
  destruct (cells s !! c0) as [x0|]; simplify_eq.
  destruct (deletions x0 =? 0); simplify_eq.
  split; simpl.
  - intros c x' Hx'. apply lookup_alter_Some in Hx' as (x & Hx & ->).
    specialize (Hc c x Hx). unfold cell_ok, count in *. simpl.
    case_decide; [apply balanced_payload|]; assumption.
  - intros i o Hi. old_objects Ho.
Qed.

Theorem step_invariant s s' (a : action T) :
  invariant s -> step s a = Ok s' -> invariant s'.
Proof.
  destruct a; eauto using step_make_invariant, step_copy_requester_invariant,
    step_assign_requester_invariant, step_call_invariant,
    step_complete_invariant, step_move_construct_invariant,
    step_store_invariant, step_destroy_invariant,
    step_destroy_lock_invariant, step_destroy_shptr_invariant,
    step_take_reference_invariant, step_store_through_invariant.
Qed.

Lemma init_invariant : invariant (@init T).
Proof. split; intros ? ? H; simpl in H; discriminate. Qed.

Theorem reachable_invariant s : reachable s -> invariant s.
Proof.
  induction 1; eauto using init_invariant, step_invariant.
Qed.

(** ** What the invariant says about one object *)

Lemma maker_Some cs (c : nat) (r : requester_class) :
  maker cs c = Some r -> exists x, cs !! c = Some x /\ made_by x = r.
Proof.
  unfold maker. destruct (cs !! c) as [x|]; simpl; [|discriminate].
  intros [= <-]. eauto.
Qed.

Lemma pointer_cell s (p : nat) q (c : nat) :
  invariant s -> objects s !! p = Some (Pointer q) -> m_shptr q = Some c ->
  exists x, cells s !! c = Some x /\
            made_by x = friend_class (class_of q) /\
            m_lock q = owned_mutex (lock_member_of (class_of q)) c /\
            cell_ok s c x.
Proof.
  intros [Hc Ho] Hp Hq. specialize (Ho _ _ Hp). simpl in Ho.
  rewrite Hq in Ho. destruct Ho as [Hm Hl].
  apply maker_Some in Hm as (x & Hx & Hr). eauto 10.
Qed.

Lemma reference_cell s (r : nat) k (c : nat) :
  invariant s -> objects s !! r = Some (Reference k c) ->
  exists x, cells s !! c = Some x /\ made_by x = friend_class k.
Proof.
  intros [Hc Ho] Hr. specialize (Ho _ _ Hr). simpl in Ho.
  apply maker_Some in Ho as (x & Hx & Hm). eauto.
Qed.

Lemma constructing_cell s (p : nat) k (c : nat) :
  invariant s -> objects s !! p = Some (Constructing k c) ->
  exists x, cells s !! c = Some x /\ made_by x = friend_class k /\
            cell_ok s c x.
Proof.
  intros [Hc Ho] Hp. specialize (Ho _ _ Hp). simpl in Ho.
  apply maker_Some in Ho as (x & Hx & Hr). eauto 10.
Qed.

(** A valid pointer with a [unique_lock] member holds the mutex of its cell
    exclusively. *)
Lemma exclusive_holder_mutex s (p : nat) q (c : nat) x :
  invariant s -> objects s !! p = Some (Pointer q) -> m_shptr q = Some c ->
  lock_member_of (class_of q) = m_unique_lock -> cells s !! c = Some x ->
  m_mutex1 x = {| writer := true; readers := 0 |}.
Proof.
  intros Hinv Hp Hq Hl Hx.
  destruct (pointer_cell s p q c Hinv Hp Hq) as (x' & Hx' & _ & Hm & Hok).
  simplify_eq. rewrite Hl in Hm. simpl in Hm.
  pose proof (sum_list_with_lookup (holds m_unique_lock c) _ _ _ Hp) as Hle.
  simpl in Hle. rewrite Hl, Hm in Hle. repeat case_decide; try congruence.
  destruct Hok as (_ & _ & Hu & Hh & Hw). unfold count in *.
  destruct (m_mutex1 x) as [w n]. simpl in *.
  destruct w; [|lia]. now rewrite (Hw eq_refl).
Qed.

(** A valid pointer with a [shared_lock] member holds the mutex of its cell
    shared. *)
Lemma shared_holder_mutex s (p : nat) q (c : nat) x :
  invariant s -> objects s !! p = Some (Pointer q) -> m_shptr q = Some c ->
  lock_member_of (class_of q) = m_shared_lock -> cells s !! c = Some x ->
  writer (m_mutex1 x) = false /\ 0 < readers (m_mutex1 x).
Proof.
  intros Hinv Hp Hq Hl Hx.
  destruct (pointer_cell s p q c Hinv Hp Hq) as (x' & Hx' & _ & Hm & Hok).
  simplify_eq. rewrite Hl in Hm. simpl in Hm.
  pose proof (sum_list_with_lookup (holds m_shared_lock c) _ _ _ Hp) as Hle.
  simpl in Hle. rewrite Hl, Hm in Hle. repeat case_decide; try congruence.
  destruct Hok as (_ & _ & Hu & Hh & Hw). unfold count in *.
  destruct (writer (m_mutex1 x)); [specialize (Hw eq_refl)|]; split;
    try reflexivity; lia.
Qed.

(** When the mutex of a cell is held exclusively, some valid pointer with a
    [unique_lock] member to that cell exists. *)
Lemma writer_holder s (c : nat) x :
  invariant s -> cells s !! c = Some x -> writer (m_mutex1 x) = true ->
  exists p q, objects s !! p = Some (Pointer q) /\ m_shptr q = Some c /\
              lock_member_of (class_of q) = m_unique_lock.
Proof.
  intros [Hc Ho] Hx Hw.
  destruct (Hc c x Hx) as (_ & _ & Hu & _). rewrite Hw in Hu.
  destruct (sum_list_with_pos (holds m_unique_lock c) (objects s))
    as (p & o & Hp & Hpos); [unfold count in Hu; lia|].
  destruct o as [|q| | |k5 sp5|k6 c6]; simpl in Hpos; try lia.
  repeat case_decide; try lia.
  specialize (Ho _ _ Hp). simpl in Ho. exists p, q.
  destruct (m_shptr q) as [c'|]; [|congruence].
  destruct Ho as [_ Hl].
  destruct (lock_member_of (class_of q)); simpl in Hl; simplify_eq; auto.
Qed.


(** ** Waiting for the mutex *)

Lemma complete_blocked s (p : nat) k (c : nat) x :
  objects s !! p = Some (Constructing k c) -> cells s !! c = Some x ->
  lock_member_acquire (lock_member_of k) (writer_waiting s c) (m_mutex1 x)
    = None ->
  step s (complete p) = Blocked.
Proof. intros Hp Hx Hl. simpl. now rewrite Hp, Hx, Hl. Qed.

Lemma complete_granted s (p : nat) k (c : nat) x m :
  objects s !! p = Some (Constructing k c) -> cells s !! c = Some x ->
  lock_member_acquire (lock_member_of k) (writer_waiting s c) (m_mutex1 x)
    = Some m ->
  step s (complete p) =
    Ok {| cells := shared_ptr_release c (alter (with_mutex m) c (cells s));
          objects :=
            <[p := Pointer {| class_of := k; m_shptr := Some c;
                              m_lock := owned_mutex (lock_member_of k) c |}]>
              (objects s) |}.
Proof. intros Hp Hx Hl. simpl. now rewrite Hp, Hx, Hl. Qed.

(** While a valid pointer with a [unique_lock] member to a cell exists, no
    constructor that wants the mutex of that cell, in either mode, gets past
    its lock member. *)
Lemma unique_lock_excludes s (p1 p2 : nat) q k (c : nat) :
  invariant s ->
  objects s !! p1 = Some (Pointer q) -> m_shptr q = Some c ->
  lock_member_of (class_of q) = m_unique_lock ->
  objects s !! p2 = Some (Constructing k c) ->
  lock_member_of k <> no_lock_member ->
  step s (complete p2) = Blocked.
Proof.
  intros Hinv Hp1 Hq Hl Hp2 Hk.
  destruct (constructing_cell s p2 k c Hinv Hp2) as (x & Hx & _).
  pose proof (exclusive_holder_mutex s p1 q c x Hinv Hp1 Hq Hl Hx) as Hm.
  apply (complete_blocked s p2 k c x Hp2 Hx). rewrite Hm.
  destruct (lock_member_of k); [reflexivity|reflexivity|congruence].
Qed.

(** While a valid pointer with a [shared_lock] member to a cell exists, no
    constructor that wants the mutex of that cell exclusively gets past its
    lock member. *)
Lemma shared_lock_excludes s (p1 p2 : nat) q k (c : nat) :
  invariant s ->
  objects s !! p1 = Some (Pointer q) -> m_shptr q = Some c ->
  lock_member_of (class_of q) = m_shared_lock ->
  objects s !! p2 = Some (Constructing k c) ->
  lock_member_of k = m_unique_lock ->
  step s (complete p2) = Blocked.
Proof.
  intros Hinv Hp1 Hq Hl Hp2 Hk.
  destruct (constructing_cell s p2 k c Hinv Hp2) as (x & Hx & _).
  destruct (shared_holder_mutex s p1 q c x Hinv Hp1 Hq Hl Hx) as [Hw Hr].
  apply (complete_blocked s p2 k c x Hp2 Hx). rewrite Hk. simpl.
  unfold lock. rewrite Hw. simpl.
  destruct (readers (m_mutex1 x)); [lia|reflexivity].
Qed.

(** Once the pointer that holds the mutex exclusively is destroyed, a
    constructor waiting for that mutex, to hold it exclusively or not at
    all, returns. *)
Lemma destroy_unblocks s (p1 p2 : nat) q k (c : nat) :
  invariant s ->
  objects s !! p1 = Some (Pointer q) -> m_shptr q = Some c ->
  lock_member_of (class_of q) = m_unique_lock ->
  objects s !! p2 = Some (Constructing k c) ->
  lock_member_of k <> m_shared_lock ->
  exists s1 s2,
    step s (destroy p1) = Ok s1 /\
    m_mutex1 <$> cells s1 !! c = Some unlocked /\
    step s1 (complete p2) = Ok s2 /\
    objects s2 !! p2 =
      Some (Pointer {| class_of := k; m_shptr := Some c;
                       m_lock := owned_mutex (lock_member_of k) c |}).
Proof.
  intros Hinv Hp1 Hq Hl Hp2 Hk.
  destruct (pointer_cell s p1 q c Hinv Hp1 Hq) as (x & Hx & _ & Hm & _).
  pose proof (exclusive_holder_mutex s p1 q c x Hinv Hp1 Hq Hl Hx) as Hmx.
  assert (p1 <> p2) as Hne by congruence.
  assert (exists m, forall w,
            lock_member_acquire (lock_member_of k) w (unlock (m_mutex1 x))
            = Some m) as [m Hacq].
  { rewrite Hmx. destruct (lock_member_of k); simpl; eauto. congruence. }
  eexists. eexists. split; [simpl; rewrite Hp1; reflexivity|].
  rewrite Hq, Hm, Hl. simpl.
  rewrite list_lookup_insert_ne by assumption. rewrite Hp2.
  unfold shared_ptr_release at 1 2. unfold release_mutex at 1 2.
  rewrite !list_lookup_alter_eq, Hx. simpl. rewrite Hacq.
  split; [now rewrite Hmx|].
  split; [reflexivity|]. simpl. apply list_lookup_insert_eq.
  rewrite length_insert. eapply lookup_lt_Some, Hp2.
Qed.

(** In a well-formed state, a pointer counted by [alive] for classes with a
    [unique_lock] member is counted by [holds m_unique_lock] as well. *)
Lemma alive_holds s (ks : list pointer_class) (c : nat) :
  invariant s ->
  (forall k, k ∈ ks -> lock_member_of k = m_unique_lock) ->
  count (alive ks c) s <= count (holds m_unique_lock c) s.
Proof.
  intros [Hc Ho] Hks. apply sum_list_with_le. intros i o Hi.
  specialize (Ho _ _ Hi). destruct o as [|q| | |k5 sp5|k6 c6]; simpl in *; try lia.
  destruct (decide (class_of q ∈ ks)) as [Hin|]; [|lia].
  destruct (decide (m_shptr q = Some c)) as [Hs|]; [|lia].
  rewrite Hs in Ho. destruct Ho as [_ Hl]. rewrite (Hks _ Hin) in Hl.
  simpl in Hl. rewrite (Hks _ Hin), Hl. now rewrite !decide_True.
Qed.

Lemma alive_at_most_one s (ks : list pointer_class) (c : nat) :
  invariant s ->
  (forall k, k ∈ ks -> lock_member_of k = m_unique_lock) ->
  count (alive ks c) s <= 1.
Proof.
  intros Hinv Hks. pose proof (alive_holds s ks c Hinv Hks) as Hle.
  destruct (cells s !! c) as [x|] eqn:Hx.
  - destruct Hinv as [Hc _]. destruct (Hc c x Hx) as (_ & _ & Hu & _).
    destruct (writer (m_mutex1 x)); lia.
  - destruct Hinv as [_ Ho]. unfold count in *.
    rewrite (sum_list_with_zero (holds m_unique_lock c)) in Hle; [lia|].
    intros i o Hi. eapply holds_fresh; [eapply Ho, Hi|].
    now apply lookup_ge_None_1.
Qed.


Lemma run_reachable s s' (tr : list (action T)) :
  reachable s -> run s tr = Some s' -> reachable s'.
Proof.
  revert s. induction tr as [|a tr IH]; simpl; intros s Hs Hrun.
  - now injection Hrun as <-.
  - destruct (step s a) as [s1| | |] eqn:Ha; try discriminate.
    eapply IH; [|exact Hrun]. eapply reachable_step; eauto.
Qed.

Lemma after_reachable (tr : list (action T)) : reachable (after tr).
Proof.
  unfold after. destruct (run init tr) as [s|] eqn:E.
  - eapply run_reachable; [apply reachable_init|exact E].
  - apply reachable_init.
Qed.

(** A constructor whose lock member is a [unique_lock] returns with the
    mutex of the cell held exclusively. *)
Lemma complete_unique_locks s s' (p : nat) k (c : nat) :
  objects s !! p = Some (Constructing k c) ->
  lock_member_of k = m_unique_lock ->
  step s (complete p) = Ok s' ->
  m_mutex1 <$> cells s' !! c = Some {| writer := true; readers := 0 |}.
Proof.
  intros Hp Hk Hstep. simpl in Hstep. rewrite Hp, Hk in Hstep. simpl in Hstep.
  destruct (cells s !! c) as [x|] eqn:Hx; [|discriminate].
  unfold lock in Hstep. destruct (writer (m_mutex1 x)); [discriminate|].
  destruct (readers (m_mutex1 x)) eqn:Hr; [|discriminate]. simpl in Hstep.
  injection Hstep as <-. simpl. unfold shared_ptr_release.
  rewrite !list_lookup_alter_eq, Hx. reflexivity.
Qed.

(** C1: at most one [TAsyncSharedPointer] to a cell is alive at any instant.
    While one is alive the mutex of the cell is held exclusively, and the
    constructor of a second one waits at its [unique_lock] member; when the
    first is destroyed, the mutex is unlocked and the waiting constructor
    returns, now holding the mutex itself. *)
Theorem exclusive_pointer_unique s (c : nat) :
  reachable s ->
  count (alive [TAsyncSharedPointer] c) s <= 1 /\
  forall (p1 p2 : nat) q,
    objects s !! p1 = Some (Pointer q) ->
    class_of q = TAsyncSharedPointer -> m_shptr q = Some c ->
    objects s !! p2 = Some (Constructing TAsyncSharedPointer c) ->
    m_mutex1 <$> cells s !! c = Some {| writer := true; readers := 0 |} /\
    step s (complete p2) = Blocked /\
    exists s1 s2,
      step s (destroy p1) = Ok s1 /\
      m_mutex1 <$> cells s1 !! c = Some unlocked /\
      step s1 (complete p2) = Ok s2 /\
      objects s2 !! p2 =
        Some (Pointer {| class_of := TAsyncSharedPointer; m_shptr := Some c;
                         m_lock := Some c |}).
Proof.
  intros Hs. apply reachable_invariant in Hs as Hinv. split.
  - apply alive_at_most_one; [assumption|].
    intros k Hk. apply list_elem_of_singleton in Hk as ->. reflexivity.
  - intros p1 p2 q Hp1 Hk Hq Hp2.
    assert (lock_member_of (class_of q) = m_unique_lock) as Hl
      by now rewrite Hk.
    destruct (pointer_cell s p1 q c Hinv Hp1 Hq) as (x & Hx & _).
    split; [|split].
    + rewrite Hx. simpl. f_equal.
      eapply exclusive_holder_mutex; eauto.
    + eapply unique_lock_excludes; eauto.
    + apply (destroy_unblocks s p1 p2 q _ c Hinv Hp1 Hq Hl Hp2).
      discriminate.
Qed.

(** C2: on the general path both const pointer classes have a [unique_lock]
    member, so their constructors return with the mutex held exclusively; at
    most one pointer of the general path, const or not, to a cell is alive
    at any instant, and while one is alive the constructor of any other
    waits. *)
Theorem general_path_pointers_exclusive s (c : nat) :
  reachable s ->
  (member_function TAsyncSharedAccessRequester const_ptr
     = Some TAsyncSharedConstPointer /\
   lock_member_of TAsyncSharedConstPointer = m_unique_lock /\
   member_function TAsyncSharedImmutableAccessRequester const_ptr
     = Some TAsyncSharedImmutableConstPointer /\
   lock_member_of TAsyncSharedImmutableConstPointer = m_unique_lock) /\
  (forall (p : nat) k s',
     k = TAsyncSharedConstPointer \/ k = TAsyncSharedImmutableConstPointer ->
     objects s !! p = Some (Constructing k c) ->
     step s (complete p) = Ok s' ->
     m_mutex1 <$> cells s' !! c = Some {| writer := true; readers := 0 |}) /\
  count (alive general_path c) s <= 1 /\
  (forall (p1 p2 : nat) q k,
     objects s !! p1 = Some (Pointer q) ->
     class_of q ∈ general_path -> m_shptr q = Some c ->
     objects s !! p2 = Some (Constructing k c) -> k ∈ general_path ->
     step s (complete p2) = Blocked).
Proof.
  intros Hs. apply reachable_invariant in Hs as Hinv.
  assert (forall k, k ∈ general_path -> lock_member_of k = m_unique_lock)
    as Hgen.
  { intros k Hk. unfold general_path in Hk.
    repeat (apply elem_of_cons in Hk as [->|Hk]; [reflexivity|]).
    now apply elem_of_nil in Hk. }
  split; [auto|]. split; [|split].
  - intros p k s' [-> | ->] Hp Hstep;
      eapply complete_unique_locks; eauto.
  - now apply alive_at_most_one.
  - intros p1 p2 q k Hp1 Hk1 Hq Hp2 Hk2.
    eapply unique_lock_excludes; eauto. rewrite (Hgen _ Hk2). discriminate.
Qed.


(** ** The pure path *)

(** The mutex of a cell made by the pure factory is held exclusively only
    while a [PurePointer] to the cell is alive. *)
Lemma pure_writer_free s (c : nat) x :
  invariant s -> cells s !! c = Some x -> made_by x = PureRequester ->
  count (alive [PurePointer] c) s = 0 ->
  writer (m_mutex1 x) = false.
Proof.
  intros Hinv Hx Hr Hnone.
  destruct (writer (m_mutex1 x)) eqn:Hw; [|reflexivity].
  destruct (writer_holder s c x Hinv Hx Hw) as (p & q & Hp & Hq & Hl).
  destruct (pointer_cell s p q c Hinv Hp Hq) as (x' & Hx' & Hr' & _).
  simplify_eq.
  assert (class_of q = PurePointer) as Hk.
  { destruct (class_of q); simpl in *; congruence. }
  pose proof (sum_list_with_lookup (alive [PurePointer] c) _ _ _ Hp) as Hle.
  unfold count in Hnone. rewrite Hnone in Hle. simpl in Hle.
  rewrite Hk, Hq in Hle. rewrite !decide_True in Hle; [lia|reflexivity|].
  apply list_elem_of_singleton. reflexivity.
Qed.

(** A writer is waiting for the mutex of a cell only when the
    implementation lets writers go first and the constructor of a pointer
    with a [unique_lock] member to the cell has been entered. *)
Lemma writer_waiting_true s (c : nat) :
  writer_waiting s c = true ->
  writers_first = true /\
  exists (p : nat) k,
    objects s !! p = Some (Constructing k c) /\
    lock_member_of k = m_unique_lock.
Proof.
  unfold writer_waiting. intros H. apply andb_true_iff in H as [Hf H].
  split; [exact Hf|]. apply existsb_exists in H as (o & Hin & Ho).
  apply list_elem_of_In, list_elem_of_lookup in Hin as [p Hp].
  destruct o as [| |k c'| | |]; simpl in Ho; try discriminate.
  apply andb_true_iff in Ho as [Hc Hk].
  apply bool_decide_eq_true in Hc as ->. apply bool_decide_eq_true in Hk.
  eauto.
Qed.

(** On a cell made by the pure factory the only such constructor is that of
    a [PurePointer]. *)
Lemma pure_writer_waiting s (c : nat) x :
  invariant s -> cells s !! c = Some x -> made_by x = PureRequester ->
  writer_waiting s c = true ->
  writers_first = true /\ 0 < count (constructing [PurePointer] c) s.
Proof.
  intros Hinv Hx Hr Hw.
  apply writer_waiting_true in Hw as (Hf & p & k & Hp & Hk).
  split; [exact Hf|].
  destruct (constructing_cell s p k c Hinv Hp) as (x' & Hx' & Hr' & _).
  simplify_eq.
  assert (k = PurePointer) as ->.
  { destruct k; simpl in *; congruence. }
  pose proof (sum_list_with_lookup (constructing [PurePointer] c) _ _ _ Hp)
    as Hle.
  unfold count. simpl in Hle.
  repeat case_decide; try lia; try congruence.
Qed.

(** The constructor of a [PureConstPointer] returns whenever no
    [PurePointer] to the cell is alive and none is waiting to go first,
    whatever the number of readers. *)
Lemma pure_const_granted s (p c : nat) :
  invariant s ->
  objects s !! p = Some (Constructing PureConstPointer c) ->
  count (alive [PurePointer] c) s = 0 ->
  writers_first = false \/ count (constructing [PurePointer] c) s = 0 ->
  exists x,
    cells s !! c = Some x /\
    step s (complete p) =
      Ok {| cells :=
              shared_ptr_release c
                (alter (with_mutex {| writer := false;
                                      readers := S (readers (m_mutex1 x)) |})
                   c (cells s));
            objects :=
              <[p := Pointer {| class_of := PureConstPointer;
                                m_shptr := Some c; m_lock := Some c |}]>
                (objects s) |}.
Proof.
  intros Hinv Hp Hnone Hfree.
  destruct (constructing_cell s p _ c Hinv Hp) as (x & Hx & Hr & _).
  exists x. split; [exact Hx|].
  pose proof (pure_writer_free s c x Hinv Hx Hr Hnone) as Hw.
  apply (complete_granted s p PureConstPointer c x); [exact Hp|exact Hx|].
  simpl. unfold lock_shared. rewrite Hw. simpl.
  destruct (writer_waiting s c) eqn:Hwait; [|reflexivity].
  apply (pure_writer_waiting s c x Hinv Hx Hr) in Hwait as [Hf Hpos].
  destruct Hfree; [congruence|lia].
Qed.

(** The constructor of a [PureConstPointer] waits only for a [PurePointer]:
    one that is alive, or one under construction that the implementation
    lets go first.  It never waits for other [PureConstPointer]s. *)
Lemma pure_const_blocked s (p c : nat) :
  invariant s ->
  objects s !! p = Some (Constructing PureConstPointer c) ->
  step s (complete p) = Blocked ->
  0 < count (alive [PurePointer] c) s \/
  (writers_first = true /\ 0 < count (constructing [PurePointer] c) s).
Proof.
  intros Hinv Hp Hstep.
  destruct (count (alive [PurePointer] c) s) eqn:Halive; [|left; lia].
  destruct writers_first eqn:Hf.
  - destruct (count (constructing [PurePointer] c) s) eqn:Hcons;
      [|right; split; [reflexivity|lia]].
    destruct (pure_const_granted s p c Hinv Hp Halive (or_intror Hcons))
      as (x & _ & Hok).
    congruence.
  - destruct (pure_const_granted s p c Hinv Hp Halive (or_introl Hf))
      as (x & _ & Hok).
    congruence.
Qed.


(** Any number of [PureConstPointer]s to one cell can be alive at once. *)
Lemma pure_const_any_number (v : T) (n : nat) :
  exists s,
    reachable s /\
    objects s !! 0 = Some (Requester PureRequester 0) /\
    count (alive [PurePointer] 0) s = 0 /\
    count (constructing [PurePointer] 0) s = 0 /\
    count (alive [PureConstPointer] 0) s = n.
Proof.
  induction n as [|n (s & Hs & Hr & Hnone & Hfree & Hn)].
  - exists (after [make PureRequester v]). split; [apply after_reachable|].
    repeat split; reflexivity.
  - destruct (step s (call 0 const_ptr)) as [s1| | |] eqn:Hcall;
      simpl in Hcall; rewrite Hr in Hcall; simpl in Hcall; try discriminate.
    injection Hcall as Hs1.
    assert (reachable s1) as Hreach1.
    { apply (reachable_step s s1 (call 0 const_ptr) Hs). simpl.
      rewrite Hr. simpl. now rewrite Hs1. }
    assert (objects s1 = objects s ++ [Constructing PureConstPointer 0])
      as Hobj1 by now rewrite <- Hs1.
    set (p := length (objects s)).
    assert (objects s1 !! p = Some (Constructing PureConstPointer 0)) as Hp.
    { rewrite Hobj1. apply list_lookup_middle. reflexivity. }
    assert (count (alive [PurePointer] 0) s1 = 0) as Hnone1.
    { unfold count in *. rewrite Hobj1, sum_list_with_snoc. simpl. lia. }
    assert (count (constructing [PurePointer] 0) s1 = 0) as Hfree1.
    { unfold count in *. rewrite Hobj1, sum_list_with_snoc. simpl. lia. }
    destruct (pure_const_granted s1 p 0 (reachable_invariant s1 Hreach1)
                Hp Hnone1 (or_intror Hfree1)) as (x & Hx & Hstep).
    eexists. split; [eapply reachable_step; [exact Hreach1|exact Hstep]|].
    simpl. unfold count in *. simpl.
    assert (0 < p) as Hpos by (eapply lookup_lt_Some, Hr).
    split; [|split; [|split]].
    + rewrite list_lookup_insert_ne by lia. rewrite Hobj1.
      now apply lookup_app_l_Some.
    + match goal with
      | |- sum_list_with ?f (<[p := ?b]> _) = _ =>
          pose proof (sum_list_with_insert f _ p _ b Hp) as E
      end.
      simpl in E. lia.
    + match goal with
      | |- sum_list_with ?f (<[p := ?b]> _) = _ =>
          pose proof (sum_list_with_insert f _ p _ b Hp) as E
      end.
      simpl in E. lia.
    + match goal with
      | |- sum_list_with ?f (<[p := ?b]> _) = _ =>
          pose proof (sum_list_with_insert f _ p _ b Hp) as E
      end.
      simpl in E.
      assert (sum_list_with (alive [PureConstPointer] 0) (objects s1) = n).
      { rewrite Hobj1, sum_list_with_snoc. simpl. lia. }
      lia.
Qed.

(** C3: a [PureConstPointer] has a [shared_lock] member.  Any number of
    them to one cell can be alive at once.  The constructor of one more
    returns, adding a reader, whenever no [PurePointer] to the cell is alive
    and none is under construction that the implementation of the mutex
    lets go first; when that constructor waits, it waits for a
    [PurePointer], alive or let go first, never for the other
    [PureConstPointer]s.  While a [PurePointer] is alive that constructor
    waits, and while a [PureConstPointer] is alive the constructor of a
    [PurePointer] waits. *)
Theorem pure_const_pointers_share :
  (member_function PureRequester const_ptr = Some PureConstPointer /\
   lock_member_of PureConstPointer = m_shared_lock /\
   member_function PureRequester ptr = Some PurePointer /\
   lock_member_of PurePointer = m_unique_lock) /\
  (forall (v : T) (n : nat),
     exists s, reachable s /\ count (alive [PureConstPointer] 0) s = n) /\
  (forall s (c : nat),
     reachable s ->
     (forall p : nat,
        objects s !! p = Some (Constructing PureConstPointer c) ->
        count (alive [PurePointer] c) s = 0 ->
        writers_first = false \/
          count (constructing [PurePointer] c) s = 0 ->
        exists s',
          step s (complete p) = Ok s' /\
          count (alive [PureConstPointer] c) s'
            = S (count (alive [PureConstPointer] c) s)) /\
     (forall p : nat,
        objects s !! p = Some (Constructing PureConstPointer c) ->
        step s (complete p) = Blocked ->
        0 < count (alive [PurePointer] c) s \/
        (writers_first = true /\
         0 < count (constructing [PurePointer] c) s)) /\
     (forall (p1 p2 : nat) q,
        objects s !! p1 = Some (Pointer q) ->
        class_of q = PurePointer -> m_shptr q = Some c ->
        objects s !! p2 = Some (Constructing PureConstPointer c) ->
        step s (complete p2) = Blocked) /\
     (forall (p1 p2 : nat) q,
        objects s !! p1 = Some (Pointer q) ->
        class_of q = PureConstPointer -> m_shptr q = Some c ->
        objects s !! p2 = Some (Constructing PurePointer c) ->
        step s (complete p2) = Blocked)).
Proof.
  split; [auto|]. split.
  - intros v n.
    destruct (pure_const_any_number v n) as (s & Hs & _ & _ & _ & Hn).
    eauto.
  - intros s c Hs. apply reachable_invariant in Hs as Hinv.
    split; [|split; [|split]].
    + intros p Hp Hnone Hfree.
      destruct (pure_const_granted s p c Hinv Hp Hnone Hfree)
        as (x & Hx & Hstep).
      eexists. split; [exact Hstep|]. unfold count. simpl.
      match goal with
      | |- sum_list_with ?f (<[p := ?b]> _) = _ =>
          pose proof (sum_list_with_insert f _ p _ b Hp) as E
      end.
      simpl in E. rewrite decide_True in E by reflexivity. lia.
    + intros p Hp Hstep. apply (pure_const_blocked s p c Hinv Hp Hstep).
    + intros p1 p2 q Hp1 Hk Hq Hp2.
      eapply unique_lock_excludes; eauto; try discriminate. now rewrite Hk.
    + intros p1 p2 q Hp1 Hk Hq Hp2.
      eapply shared_lock_excludes; eauto. now rewrite Hk.
Qed.


(** ** Steps that leave every mutex alone *)

Lemma fmap_mutex_alter (f : cell T -> cell T) (c : nat) cs :
  (forall x, m_mutex1 (f x) = m_mutex1 x) ->
  m_mutex1 <$> alter f c cs = m_mutex1 <$> cs.
Proof.
  intros Hf. apply list_eq. intros i. rewrite !list_lookup_fmap.
  destruct (decide (c = i)) as [->|Hne].
  - rewrite list_lookup_alter_eq. destruct (cs !! i); simpl; [|reflexivity].
    now rewrite Hf.
  - now rewrite list_lookup_alter_ne.
Qed.

Lemma alter_with_own_mutex cs (c : nat) x :
  cs !! c = Some x -> alter (with_mutex (m_mutex1 x)) c cs = cs.
Proof.
  intros Hx. apply list_eq. intros i. destruct (decide (c = i)) as [->|Hne].
  - rewrite list_lookup_alter_eq, Hx. simpl. now destruct x.
  - now rewrite list_lookup_alter_ne.
Qed.

(** C4: a [PureImmutableConstPointer] has no lock member.  Entering its
    constructor, returning from it and destroying it leave the mutex of
    every cell as it was, and the constructor never waits, whatever other
    objects exist. *)
Theorem pure_immutable_const_pointer_takes_no_lock s :
  reachable s ->
  lock_member_of PureImmutableConstPointer = no_lock_member /\
  (forall r c : nat,
     objects s !! r = Some (Requester PureImmutableRequester c) ->
     exists s',
       step s (call r const_ptr) = Ok s' /\ mutexes s' = mutexes s /\
       objects s' !! length (objects s)
         = Some (Constructing PureImmutableConstPointer c)) /\
  (forall p c : nat,
     objects s !! p = Some (Constructing PureImmutableConstPointer c) ->
     exists s',
       step s (complete p) = Ok s' /\ mutexes s' = mutexes s /\
       objects s' !! p
         = Some (Pointer {| class_of := PureImmutableConstPointer;
                            m_shptr := Some c; m_lock := None |})) /\
  (forall (p : nat) q,
     objects s !! p = Some (Pointer q) ->
     class_of q = PureImmutableConstPointer ->
     exists s', step s (destroy p) = Ok s' /\ mutexes s' = mutexes s).
Proof.
  intros Hs. apply reachable_invariant in Hs as Hinv.
  split; [reflexivity|]. split; [|split].
  - intros r c Hr. eexists. simpl. rewrite Hr. simpl.
    split; [reflexivity|]. unfold mutexes. simpl. split.
    + unfold shared_ptr_copy. rewrite !fmap_mutex_alter by (intros; reflexivity); reflexivity.
    + now apply list_lookup_middle.
  - intros p c Hp.
    destruct (constructing_cell s p _ c Hinv Hp) as (x & Hx & _).
    eexists. rewrite (complete_granted s p _ c x (m_mutex1 x) Hp Hx eq_refl).
    split; [reflexivity|]. unfold mutexes. simpl. split.
    + rewrite (alter_with_own_mutex _ _ _ Hx).
      unfold shared_ptr_release. rewrite !fmap_mutex_alter by (intros; reflexivity); reflexivity.
    + apply list_lookup_insert_eq. eapply lookup_lt_Some, Hp.
  - intros p q Hp Hk. eexists. simpl. rewrite Hp.
    split; [reflexivity|]. unfold mutexes. simpl.
    assert (m_lock q = None) as ->.
    { destruct Hinv as [_ Ho]. specialize (Ho _ _ Hp). simpl in Ho.
      rewrite Hk in Ho. destruct (m_shptr q); [apply Ho|exact Ho]. }
    simpl. destruct (m_shptr q); simpl; [|reflexivity].
    unfold shared_ptr_release. rewrite !fmap_mutex_alter by (intros; reflexivity); reflexivity.
Qed.

(** ** Dereferencing and moving *)

Lemma move_construct_step s (p : nat) q :
  objects s !! p = Some (Pointer q) ->
  step s (move_construct p) =
    Ok {| cells := cells s;
          objects := <[p := Pointer (moved_from q)]> (objects s)
                       ++ [Pointer q] |}.
Proof. intros Hp. simpl. now rewrite Hp. Qed.

(** C5: for every pointer class, [operator*] and [operator->] on a pointer
    for which [is_valid()] holds return the cell [m_shptr] points to, and on
    one for which it does not they throw the class's [out_of_range], so
    that they never dereference an empty [m_shptr]; a pointer that has been
    moved from is not valid, and they throw on it; in a reachable state the
    cell returned has not been deleted, and a write through an invalid
    pointer ends in that exception. *)
Theorem dereference_returns_or_throws :
  (forall q,
     is_valid q = true ->
     exists c : nat,
       m_shptr q = Some c /\
       operator_star q = Returned c /\ operator_arrow q = Returned c) /\
  (forall q,
     is_valid q = false ->
     operator_star q = Thrown (invalid_pointer (class_of q)) /\
     operator_arrow q = Thrown (invalid_pointer (class_of q))) /\
  (forall q, operator_star q <> Undefined /\ operator_arrow q <> Undefined) /\
  (forall q,
     is_valid (moved_from q) = false /\
     class_of (moved_from q) = class_of q) /\
  (forall k (c : nat) (l : option nat),
     let q := {| class_of := k; m_shptr := Some c; m_lock := l |} in
     operator_star q = Returned c /\ operator_arrow q = Returned c) /\
  (forall q,
     operator_star (moved_from q) = Thrown (invalid_pointer (class_of q)) /\
     operator_arrow (moved_from q) = Thrown (invalid_pointer (class_of q))) /\
  (forall s (p : nat) q,
     objects s !! p = Some (Pointer q) ->
     exists s',
       step s (move_construct p) = Ok s' /\
       objects s' !! p = Some (Pointer (moved_from q))) /\
  (forall s (p : nat) q (c : nat),
     reachable s -> objects s !! p = Some (Pointer q) ->
     operator_star q = Returned c ->
     exists x, cells s !! c = Some x /\ deletions x = 0 /\
               load s q = Returned (Some (payload x))) /\
  (forall s (p : nat) q (v : T),
     objects s !! p = Some (Pointer q) -> is_valid q = false ->
     dereference_type (class_of q) = mutable_access ->
     step s (store p v) = Throws (invalid_pointer (class_of q))).
Proof.
  split; [|split; [|split; [|split]]].
  { intros q Hv. unfold operator_star, operator_arrow. rewrite Hv. simpl.
    unfold is_valid in Hv. destruct (m_shptr q) as [c|]; [|discriminate].
    exists c. repeat split; reflexivity. }
  { intros q Hv. unfold operator_star, operator_arrow. rewrite Hv.
    split; reflexivity. }
  { intros q. unfold operator_star, operator_arrow, is_valid.
    destruct (m_shptr q); split; discriminate. }
  { intros q. split; reflexivity. }
  split; [intros; split; reflexivity|]. split; [intros; split; reflexivity|].
  split; [|split].
  - intros s p q Hp. eexists. split; [apply move_construct_step, Hp|].
    simpl. rewrite lookup_app_l.
    + apply list_lookup_insert_eq. eapply lookup_lt_Some, Hp.
    + rewrite length_insert. eapply lookup_lt_Some, Hp.
  - intros s p q c Hs Hp Hstar. apply reachable_invariant in Hs as Hinv.
    assert (m_shptr q = Some c) as Hq.
    { unfold operator_star, is_valid in Hstar.
      destruct (m_shptr q); simpl in Hstar; congruence. }
    destruct (pointer_cell s p q c Hinv Hp Hq) as (x & Hx & _ & _ & Hok).
    exists x. split; [exact Hx|]. split.
    + destruct Hok as (Hc & Hd & _). rewrite Hd.
      pose proof (sum_list_with_lookup (refs c) _ _ _ Hp) as Hle.
      simpl in Hle. rewrite decide_True in Hle by assumption.
      unfold count. destruct (Nat.eqb_spec (sum_list_with (refs c) (objects s)) 0);
        [lia|reflexivity].
    + unfold load. rewrite Hstar. simpl. now rewrite Hx.
  - intros s p q v Hp Hq Hk. simpl. rewrite Hp, Hk.
    unfold operator_star. now rewrite Hq.
Qed.

(** C6: every pointer class is move-only.  Its copy constructor and both
    assignment operators are unusable and its move constructor is usable;
    move construction hands [m_shptr] and the lock member's mutex to the
    new object and leaves the source with neither, so the source is invalid
    and its dereference throws, and the cells are not touched; therefore, in
    every reachable state, the lock members that own a mutex are exactly as
    many as the acquisitions the mutex records. *)
Theorem pointers_are_move_only :
  (forall k,
     usable (pointer_declares k) copy_constructor = false /\
     usable (pointer_declares k) copy_assignment = false /\
     usable (pointer_declares k) move_assignment = false /\
     usable (pointer_declares k) move_constructor = true) /\
  (forall s (p : nat) q,
     objects s !! p = Some (Pointer q) ->
     step s (move_construct p) =
       Ok {| cells := cells s;
             objects := <[p := Pointer (moved_from q)]> (objects s)
                          ++ [Pointer q] |} /\
     m_shptr (moved_from q) = None /\ m_lock (moved_from q) = None /\
     operator_bool (moved_from q) = false /\
     operator_star (moved_from q) = Thrown (invalid_pointer (class_of q))) /\
  (forall s (c : nat) x,
     reachable s -> cells s !! c = Some x ->
     count (holds m_unique_lock c) s
       = (if writer (m_mutex1 x) then 1 else 0) /\
     count (holds m_shared_lock c) s = readers (m_mutex1 x)).
Proof.
  split; [intros k; repeat split; reflexivity|]. split.
  - intros s p q Hp. split; [apply move_construct_step, Hp|].
    repeat split; reflexivity.
  - intros s c x Hs Hx. apply reachable_invariant in Hs as [Hc _].
    destruct (Hc c x Hx) as (_ & _ & Hu & Hh & _). auto.
Qed.


(** ** Cells made by the immutable factory *)

Lemma payload_alter (f : cell T -> cell T) cs (c c' : nat) :
  (forall x, payload (f x) = payload x) ->
  payload <$> alter f c cs !! c' = payload <$> cs !! c'.
Proof.
  intros Hf. destruct (decide (c = c')) as [->|Hne].
  - rewrite list_lookup_alter_eq. destruct (cs !! c'); simpl; [|reflexivity].
    now rewrite Hf.
  - now rewrite list_lookup_alter_ne.
Qed.

(** Only a write to a cell, through a valid pointer with mutable access or
    through a reference that such a pointer has returned, changes the
    payload of that cell. *)
Lemma step_payload s s' (a : action T) (c : nat) x :
  step s a = Ok s' -> cells s !! c = Some x ->
  payload <$> cells s' !! c = Some (payload x) \/
  (exists (p : nat) q (v : T),
     a = store p v /\ objects s !! p = Some (Pointer q) /\
     m_shptr q = Some c /\ dereference_type (class_of q) = mutable_access) \/
  (exists (r : nat) k (v : T),
     a = store_through r v /\ objects s !! r = Some (Reference k c) /\
     dereference_type k = mutable_access).
Proof.
  intros Hstep Hx.
  assert (payload <$> cells s !! c = Some (payload x)) as Hold
    by now rewrite Hx.
  destruct a as [r v|r|dst src|r f|p|p|p v|i|p|p|p|r v]; simpl in Hstep.
  - injection Hstep as <-. left. simpl.
    now rewrite (lookup_app_l_Some _ _ _ _ Hx).
  - destruct (objects s !! r) as [[k c0| | | | | ]|]; simplify_eq. left. simpl.
    unfold shared_ptr_copy. now rewrite payload_alter.
  - destruct (objects s !! dst) as [[k c0| | | | | ]|]; simplify_eq.
    destruct (objects s !! src) as [[k' c1| | | | | ]|]; simplify_eq.
    case_decide; simplify_eq. left. simpl.
    unfold shared_ptr_copy, shared_ptr_release. now rewrite !payload_alter.
  - destruct (objects s !! r) as [[k c0| | | | | ]|]; simplify_eq.
    destruct (member_function k f); simplify_eq. left. simpl.
    unfold shared_ptr_copy. now rewrite !payload_alter.
  - destruct (objects s !! p) as [[| |k c0| | | ]|]; simplify_eq.
    destruct (cells s !! c0); simplify_eq.
    destruct (lock_member_acquire _ _ _); simplify_eq. left. simpl.
    unfold shared_ptr_release. now rewrite !payload_alter.
  - destruct (objects s !! p) as [[|q| | | | ]|]; simplify_eq. now left.
  - destruct (objects s !! p) as [[|q| | | | ]|] eqn:Hp; simplify_eq.
    destruct (dereference_type (class_of q)) eqn:Hk; simplify_eq.
    destruct (operator_star q) as [c0| |] eqn:Hstar; simplify_eq.
    destruct (decide (c0 = c)) as [->|Hne].
    + right. left. exists p, q, v. repeat split; try assumption.
      unfold operator_star, is_valid in Hstar.
      destruct (m_shptr q); simpl in Hstar; congruence.
    + left. simpl. now rewrite list_lookup_alter_ne.
  - destruct (objects s !! i) as [[k c0|q| | | | ]|]; simplify_eq; left; simpl.
    + unfold shared_ptr_release. now rewrite payload_alter.
    + unfold destroy_shared_ptr, destroy_lock_member, shared_ptr_release,
        release_mutex.
      destruct (m_shptr q), (m_lock q); now rewrite ?payload_alter.
  - destruct (objects s !! p) as [[|q| | | | ]|]; simplify_eq. left. simpl.
    unfold destroy_lock_member, release_mutex.
    destruct (m_lock q); now rewrite ?payload_alter.
  - destruct (objects s !! p) as [[| | | |k sp| ]|]; simplify_eq. left. simpl.
    unfold destroy_shared_ptr, shared_ptr_release.
    destruct sp; now rewrite ?payload_alter.
  - destruct (objects s !! p) as [[|q| | | | ]|]; simplify_eq.
    destruct (operator_star q); simplify_eq. now left.
  - destruct (objects s !! r) as [[| | | | |k c0]|] eqn:Hr; simplify_eq.
    destruct (dereference_type k) eqn:Hk; simplify_eq.
    destruct (cells s !! c0); simplify_eq.
    destruct (deletions _ =? 0); simplify_eq.
    destruct (decide (c0 = c)) as [->|Hne].
    + right. right. exists r, k, v. repeat split; assumption.
    + left. simpl. now rewrite list_lookup_alter_ne.
Qed.

(** C7: [TAsyncSharedImmutableAccessRequester] has no [ptr] member, and its
    [const_ptr] returns a pointer with const access.  In every reachable
    state, every pointer to a cell made by its factory, constructed or under
    construction, is a [TAsyncSharedImmutableConstPointer], and no step
    changes the payload of the cell. *)
Theorem immutable_cell_has_no_mutable_pointer :
  (member_function TAsyncSharedImmutableAccessRequester ptr = None /\
   member_function TAsyncSharedImmutableAccessRequester const_ptr
     = Some TAsyncSharedImmutableConstPointer /\
   dereference_type TAsyncSharedImmutableConstPointer = const_access) /\
  (forall s (c : nat) x,
     reachable s -> cells s !! c = Some x ->
     made_by x = TAsyncSharedImmutableAccessRequester ->
     (forall (i : nat) q,
        objects s !! i = Some (Pointer q) -> m_shptr q = Some c ->
        class_of q = TAsyncSharedImmutableConstPointer) /\
     (forall (i : nat) k,
        objects s !! i = Some (Constructing k c) ->
        k = TAsyncSharedImmutableConstPointer) /\
     (forall (a : action T) s',
        step s a = Ok s' -> payload <$> cells s' !! c = Some (payload x))).
Proof.
  split; [auto|]. intros s c x Hs Hx Hr.
  apply reachable_invariant in Hs as Hinv.
  assert (forall (i : nat) q,
            objects s !! i = Some (Pointer q) -> m_shptr q = Some c ->
            class_of q = TAsyncSharedImmutableConstPointer) as Hptr.
  { intros i q Hi Hq.
    destruct (pointer_cell s i q c Hinv Hi Hq) as (x' & Hx' & Hr' & _).
    simplify_eq. destruct (class_of q); simpl in *; congruence. }
  split; [exact Hptr|]. split.
  - intros i k Hi.
    destruct (constructing_cell s i k c Hinv Hi) as (x' & Hx' & Hr' & _).
    simplify_eq. destruct k; simpl in *; congruence.
  - intros a s' Hstep.
    destruct (step_payload s s' a c x Hstep Hx)
      as [Hsame|[(p & q & v & _ & Hp & Hq & Hk)|(r & k & v & _ & Hr' & Hk)]];
      [exact Hsame| |].
    + rewrite (Hptr p q Hp Hq) in Hk. discriminate.
    + destruct (reference_cell s r k c Hinv Hr') as (x' & Hx' & Hm).
      simplify_eq. destruct k; simpl in *; congruence.
Qed.

(** ** Ownership of a cell *)

(** C8: the use count of a cell is the number of [shared_ptr]s to it inside
    requesters and pointers.  While any object holds one the cell has not
    been deleted; once none does the cell has been deleted, exactly once;
    and the destructor of a requester or of a pointer can always run. *)
Theorem cell_deleted_exactly_once s (c : nat) x :
  reachable s -> cells s !! c = Some x ->
  use_count x = count (refs c) s /\
  (forall (i : nat) o,
     objects s !! i = Some o -> 0 < refs c o -> deletions x = 0) /\
  (count (refs c) s = 0 -> deletions x = 1) /\
  deletions x <= 1 /\
  (forall (i : nat) o,
     objects s !! i = Some o ->
     (exists r c', o = Requester r c') \/ (exists q, o = Pointer q) ->
     exists s', step s (destroy i) = Ok s').
Proof.
  intros Hs Hx. apply reachable_invariant in Hs as [Hc Ho].
  destruct (Hc c x Hx) as (Hu & Hd & _). unfold count in *.
  split; [exact Hu|]. rewrite Hd.
  destruct (Nat.eqb_spec (sum_list_with (refs c) (objects s)) 0) as [E|E].
  - repeat split; try lia.
    + intros i o Hi Hpos.
      pose proof (sum_list_with_lookup (refs c) _ _ _ Hi). lia.
    + intros i o Hi [(r & c' & ->)|(q & ->)]; simpl; rewrite Hi; eauto.
  - repeat split; try lia.
    intros i o Hi [(r & c' & ->)|(q & ->)]; simpl; rewrite Hi; eauto.
Qed.

(** ** The validity check *)

(** C9, amended: for every pointer class, [operator bool] on a pointer
    that is not valid, as one that has been moved from is, returns false
    and throws nothing.  The public members that return on such a pointer
    are [operator bool], the destructor and the move constructor, and no
    other: [operator*] and [operator->] throw.  On a valid pointer
    [operator bool] returns true. *)
Theorem operator_bool_never_throws :
  (forall s (p : nat) q,
     objects s !! p = Some (Pointer q) -> is_valid q = false ->
     invoke s p public_operator_bool = Returned (boolean false, s) /\
     (forall f : public_member,
        (exists r, invoke s p f = Returned r) <->
        f = public_operator_bool \/ f = public_destructor \/
        f = public_move_constructor) /\
     invoke s p public_operator_star
       = Thrown (invalid_pointer (class_of q)) /\
     invoke s p public_operator_arrow
       = Thrown (invalid_pointer (class_of q))) /\
  (forall s (p : nat) q,
     objects s !! p = Some (Pointer q) ->
     exists s',
       step s (move_construct p) = Ok s' /\
       objects s' !! p = Some (Pointer (moved_from q)) /\
       is_valid (moved_from q) = false) /\
  (forall s (p : nat) q,
     objects s !! p = Some (Pointer q) -> is_valid q = true ->
     invoke s p public_operator_bool = Returned (boolean true, s)).
Proof.
  split; [|split].
  - intros s p q Hp Hv.
    assert (m_shptr q = None) as Hq.
    { unfold is_valid in Hv. destruct (m_shptr q); [discriminate|reflexivity]. }
    assert (invoke s p public_operator_star
            = Thrown (invalid_pointer (class_of q))) as Hstar.
    { unfold invoke, operator_star. now rewrite Hp, Hv. }
    assert (invoke s p public_operator_arrow
            = Thrown (invalid_pointer (class_of q))) as Harrow.
    { unfold invoke, operator_arrow. now rewrite Hp, Hv. }
    split; [|split; [|split; assumption]].
    + unfold invoke, operator_bool. now rewrite Hp, Hq.
    + intros f. split.
      * intros [r Hr]. destruct f; auto; congruence.
      * intros [Hf|[Hf|Hf]]; subst f; unfold invoke; simpl; rewrite Hp;
          eauto.
  - intros s p q Hp. eexists. split; [apply move_construct_step, Hp|].
    split; [|reflexivity]. simpl. rewrite lookup_app_l.
    + apply list_lookup_insert_eq. eapply lookup_lt_Some, Hp.
    + rewrite length_insert. eapply lookup_lt_Some, Hp.
  - intros s p q Hp Hv. unfold invoke, operator_bool. rewrite Hp.
    unfold is_valid in Hv. destruct (m_shptr q); [reflexivity|discriminate].
Qed.

End Facts.

(** ** The theorems at concrete programs *)

Section Examples.

Local Existing Instance writers_go_first.

Lemma exclusive_pointer_unique_witness :
  count (alive [TAsyncSharedPointer] 0) (after demo_exclusive) <= 1 /\
  step (after demo_exclusive) (complete 2) = Blocked.
Proof.
  destruct (exclusive_pointer_unique nat (after demo_exclusive) 0
              (after_reachable nat demo_exclusive)) as [Hone Hwait].
  split; [exact Hone|].
  destruct (Hwait 1 2 _ eq_refl eq_refl eq_refl eq_refl) as (_ & Hb & _).
  exact Hb.
Defined.

Lemma general_path_pointers_exclusive_witness :
  count (alive general_path 0) (after demo_const) <= 1 /\
  step (after demo_const) (complete 2) = Blocked.
Proof.
  destruct (general_path_pointers_exclusive nat (after demo_const) 0
              (after_reachable nat demo_const))
    as (_ & _ & Hone & Hwait).
  split; [exact Hone|].
  apply (Hwait 1 2 _ TAsyncSharedConstPointer eq_refl); try reflexivity.
  - unfold general_path. apply elem_of_cons. right. apply elem_of_cons. now left.
  - unfold general_path. apply elem_of_cons. right. apply elem_of_cons. now left.
Defined.

(** With two readers alive and a writer under construction, a third reader
    is let in by the implementation that does not put writers first, and
    kept waiting, for the writer, by the one that does; the writer waits
    under both. *)
Lemma pure_const_pointers_share_witness :
  (exists s',
     step (impl := readers_go_first) (after demo_readers) (complete 4)
       = Ok s' /\
     count (alive [PureConstPointer] 0) s' = 3) /\
  0 < count (constructing [PurePointer] 0) (after demo_readers) /\
  step (after demo_readers) (complete 3) = Blocked.
Proof.
  destruct (pure_const_pointers_share nat (impl := readers_go_first))
    as (_ & _ & Hfree).
  destruct (Hfree (after demo_readers) 0 (after_reachable nat demo_readers))
    as (Hread & _).
  destruct (pure_const_pointers_share nat) as (_ & _ & H).
  destruct (H (after demo_readers) 0 (after_reachable nat demo_readers))
    as (_ & Hwait & _ & Hwrite).
  split; [|split].
  - apply (Hread 4); [reflexivity|reflexivity|left; reflexivity].
  - destruct (Hwait 4 eq_refl eq_refl) as [Halive|[_ Hcons]];
      [vm_compute in Halive; lia|exact Hcons].
  - apply (Hwrite 1 3 _ eq_refl); reflexivity.
Defined.

Lemma pure_immutable_const_pointer_takes_no_lock_witness :
  exists s',
    step (after demo_lock_free) (complete 2) = Ok s' /\
    mutexes s' = mutexes (after demo_lock_free).
Proof.
  destruct (pure_immutable_const_pointer_takes_no_lock nat
              (after demo_lock_free) (after_reachable nat demo_lock_free))
    as (_ & _ & Hcomplete & _).
  destruct (Hcomplete 2 0 eq_refl) as (s' & Hstep & Hm & _). eauto.
Defined.

(** The pointer of [demo_pointer] is valid and [operator*] returns its
    cell, which has not been deleted; once moved from it is not valid and
    [operator*] throws. *)
Lemma dereference_returns_or_throws_witness :
  (exists c : nat,
     operator_star {| class_of := TAsyncSharedPointer; m_shptr := Some 0;
                      m_lock := Some 0 |} = Returned c) /\
  operator_star
    (moved_from {| class_of := TAsyncSharedPointer; m_shptr := Some 0;
                   m_lock := Some 0 |})
    = Thrown (invalid_pointer TAsyncSharedPointer) /\
  (exists x, cells (after demo_pointer) !! 0 = Some x /\ deletions x = 0).
Proof.
  destruct (dereference_returns_or_throws nat)
    as (Hvalid & Hinvalid & _ & _ & _ & _ & _ & Hlive & _).
  split; [|split].
  - destruct (Hvalid {| class_of := TAsyncSharedPointer; m_shptr := Some 0;
                        m_lock := Some 0 |} eq_refl) as (c & _ & Hstar & _).
    exists c. exact Hstar.
  - destruct (Hinvalid
                (moved_from {| class_of := TAsyncSharedPointer;
                               m_shptr := Some 0; m_lock := Some 0 |})
                eq_refl) as [Hstar _].
    exact Hstar.
  - destruct (Hlive (after demo_pointer) 1 _ 0
                (after_reachable nat demo_pointer) eq_refl eq_refl)
      as (x & Hx & Hd & _).
    eauto.
Defined.

Lemma pointers_are_move_only_witness :
  count (holds m_unique_lock 0) (after (demo_pointer ++ [move_construct 1]))
  = 1.
Proof.
  destruct (pointers_are_move_only nat) as (_ & _ & Htokens).
  destruct (Htokens (after (demo_pointer ++ [move_construct 1])) 0 _
              (after_reachable nat _) eq_refl) as [Hu _].
  exact Hu.
Defined.

Lemma immutable_cell_has_no_mutable_pointer_witness :
  (forall q, objects (after demo_immutable) !! 1 = Some (Pointer q) ->
             m_shptr q = Some 0 ->
             class_of q = TAsyncSharedImmutableConstPointer) /\
  payload <$> cells (after (demo_immutable ++ [destroy 1])) !! 0 = Some 7.
Proof.
  destruct (immutable_cell_has_no_mutable_pointer nat) as [_ Hcell].
  destruct (Hcell (after demo_immutable) 0 _
              (after_reachable nat demo_immutable) eq_refl eq_refl)
    as (Hptr & _ & Hpayload).
  split; [exact (Hptr 1)|].
  exact (Hpayload (destroy 1) (after (demo_immutable ++ [destroy 1])) eq_refl).
Defined.

Lemma cell_deleted_exactly_once_witness :
  exists x, cells (after demo_lifetime) !! 0 = Some x /\ deletions x = 1.
Proof.
  eexists. split; [reflexivity|].
  destruct (cell_deleted_exactly_once nat (after demo_lifetime) 0 _
              (after_reachable nat demo_lifetime) eq_refl)
    as (_ & _ & Hfreed & _).
  apply Hfreed. reflexivity.
Defined.

(** The claim as it stands fails on a pointer that has been moved from:
    moving from it once more returns as well. *)
Lemma operator_bool_not_the_only_safe_member :
  ~ (forall f : public_member,
       (exists r, invoke (after demo_moved_from) 1 f = Returned r) ->
       f = public_operator_bool \/ f = public_destructor).
Proof.
  intros H.
  destruct (H public_move_constructor) as [E|E]; [|discriminate|discriminate].
  eexists. reflexivity.
Qed.

Lemma operator_bool_never_throws_witness :
  invoke (after demo_moved_from) 1 public_operator_bool
    = Returned (boolean false, after demo_moved_from) /\
  invoke (after demo_moved_from) 1 public_operator_star
    = Thrown (invalid_pointer TAsyncSharedPointer).
Proof.
  destruct (operator_bool_never_throws nat) as [Hinvalid _].
  destruct (Hinvalid (after demo_moved_from) 1 _ eq_refl eq_refl)
    as (Hbool & _ & Hstar & _).
  split; [exact Hbool|exact Hstar].
Defined.

End Examples.

(** ** More on programs over the header *)

Section Pairs.

Context {A : Type} (f : A -> nat).

Lemma sum_list_with_two (l : list A) (i j : nat) (a b : A) :
  i <> j -> l !! i = Some a -> l !! j = Some b ->
  f a + f b <= sum_list_with f l.
Proof.
  revert i j. induction l as [|y l IH]; intros [|i] [|j] Hne Hi Hj;
    simpl in *; try discriminate; try congruence.
  - injection Hi as ->. pose proof (sum_list_with_lookup f l j b Hj). lia.
  - injection Hj as ->. pose proof (sum_list_with_lookup f l i a Hi). lia.
  - assert (i <> j) as Hne' by congruence.
    specialize (IH i j Hne' Hi Hj). lia.
Qed.

End Pairs.

Section MoreFacts.

Variable T : Type.

Context {impl : implementation}.

Implicit Types (s : state T) (x : cell T) (cs : list (cell T)).
Implicit Types (o : object) (q : pointer) (k : pointer_class).

(** A lock member owns only the mutex of the cell [m_shptr] points to. *)
Lemma holds_refs cs o (l : lock_member) (c : nat) :
  object_ok cs o -> holds l c o <= refs c o.
Proof.
  destruct o as [|q| | |k5 sp5|k6 c6]; simpl; try lia. intros Hok.
  destruct (decide (lock_member_of (class_of q) = l)); [|lia].
  destruct (decide (m_lock q = Some c)) as [Hl|]; [|lia].
  destruct (m_shptr q) as [c'|]; [|congruence].
  destruct Hok as [_ Ho]. rewrite Ho in Hl.
  destruct (lock_member_of (class_of q)); simpl in Hl; simplify_eq;
    now rewrite decide_True.
Qed.

(** When the mutex of a cell is held shared, some valid pointer with a
    [shared_lock] member to that cell exists. *)
Lemma reader_holder s (c : nat) x :
  invariant s -> cells s !! c = Some x -> 0 < readers (m_mutex1 x) ->
  exists p q, objects s !! p = Some (Pointer q) /\ m_shptr q = Some c /\
              lock_member_of (class_of q) = m_shared_lock.
Proof.
  intros [Hc Ho] Hx Hr.
  destruct (Hc c x Hx) as (_ & _ & _ & Hh & _).
  destruct (sum_list_with_pos (holds m_shared_lock c) (objects s))
    as (p & o & Hp & Hpos); [unfold count in Hh; lia|].
  destruct o as [|q| | |k5 sp5|k6 c6]; simpl in Hpos; try lia.
  repeat case_decide; try lia.
  specialize (Ho _ _ Hp). simpl in Ho. exists p, q.
  destruct (m_shptr q) as [c'|]; [|congruence].
  destruct Ho as [_ Hl].
  destruct (lock_member_of (class_of q)); simpl in Hl; simplify_eq; auto.
Qed.

(** The mutex of a cell is unlocked when no valid pointer to the cell has a
    lock member. *)
Lemma no_holder_unlocked s (c : nat) x :
  invariant s -> cells s !! c = Some x ->
  (forall (p : nat) q,
     objects s !! p = Some (Pointer q) -> m_shptr q = Some c ->
     lock_member_of (class_of q) = no_lock_member) ->
  m_mutex1 x = unlocked.
Proof.
  intros Hinv Hx Hnone.
  assert (writer (m_mutex1 x) = false) as Hw.
  { destruct (writer (m_mutex1 x)) eqn:Hw; [|reflexivity].
    destruct (writer_holder T s c x Hinv Hx Hw) as (p & q & Hp & Hq & Hl).
    rewrite (Hnone p q Hp Hq) in Hl. discriminate. }
  assert (readers (m_mutex1 x) = 0) as Hr.
  { destruct (readers (m_mutex1 x)) eqn:Hr; [reflexivity|].
    destruct (reader_holder s c x Hinv Hx) as (p & q & Hp & Hq & Hl); [lia|].
    rewrite (Hnone p q Hp Hq) in Hl. discriminate. }
  destruct (m_mutex1 x). simpl in *. now subst.
Qed.

(** X1: in every reachable state, those between the two steps of a
    destructor included, a cell that has been deleted is owned by nothing
    and its mutex is unlocked: a destructor destroys the lock member before
    [m_shptr], so that no cell is deleted while a pointer holds its lock. *)
Theorem deleted_cell_is_unlocked s (c : nat) x :
  reachable s -> cells s !! c = Some x -> 0 < deletions x ->
  use_count x = 0 /\ m_mutex1 x = unlocked /\
  forall (i : nat) o, objects s !! i = Some o -> refs c o = 0.
Proof.
  intros Hs Hx Hd. apply reachable_invariant in Hs as Hinv.
  destruct Hinv as [Hc Ho]. destruct (Hc c x Hx) as (Hu & Hdel & _).
  unfold count in *.
  assert (sum_list_with (refs c) (objects s) = 0) as Hzero.
  { destruct (Nat.eqb_spec (sum_list_with (refs c) (objects s)) 0); lia. }
  assert (forall (i : nat) o, objects s !! i = Some o -> refs c o = 0)
    as Hnone.
  { intros i o Hi. pose proof (sum_list_with_lookup (refs c) _ _ _ Hi). lia. }
  split; [lia|]. split; [|exact Hnone].
  apply (no_holder_unlocked s c x (conj Hc Ho) Hx).
  intros p q Hp Hq. specialize (Hnone p _ Hp). simpl in Hnone.
  rewrite decide_True in Hnone by assumption. discriminate.
Qed.

(** X2: a cell made by the factory of the pure immutable requester is never
    locked, in any reachable state: every pointer to it is a
    [PureImmutableConstPointer], and no step changes its payload. *)
Theorem pure_immutable_cell_never_locked s (c : nat) x :
  reachable s -> cells s !! c = Some x ->
  made_by x = PureImmutableRequester ->
  m_mutex1 x = unlocked /\
  (forall (i : nat) q,
     objects s !! i = Some (Pointer q) -> m_shptr q = Some c ->
     class_of q = PureImmutableConstPointer) /\
  (forall (a : action T) s',
     step s a = Ok s' -> payload <$> cells s' !! c = Some (payload x)).
Proof.
  intros Hs Hx Hr. apply reachable_invariant in Hs as Hinv.
  assert (forall (i : nat) q,
            objects s !! i = Some (Pointer q) -> m_shptr q = Some c ->
            class_of q = PureImmutableConstPointer) as Hptr.
  { intros i q Hi Hq.
    destruct (pointer_cell T s i q c Hinv Hi Hq) as (x' & Hx' & Hr' & _).
    simplify_eq. destruct (class_of q); simpl in *; congruence. }
  split; [|split; [exact Hptr|]].
  - apply (no_holder_unlocked s c x Hinv Hx). intros p q Hp Hq.
    now rewrite (Hptr p q Hp Hq).
  - intros a s' Hstep.
    destruct (step_payload T s s' a c x Hstep Hx)
      as [Hsame|[(p & q & v & _ & Hp & Hq & Hk)|(r & k & v & _ & Hr' & Hk)]];
      [exact Hsame| |].
    + rewrite (Hptr p q Hp Hq) in Hk. discriminate.
    + destruct (reference_cell T s r k c Hinv Hr') as (x' & Hx' & Hm).
      simplify_eq. destruct k; simpl in *; congruence.
Qed.

(** X3: a constructor waits only while some valid pointer holds the mutex
    of the cell in a mode that excludes it (exclusively, or shared when the
    constructor wants it exclusively), or, when it wants the mutex shared
    and the implementation lets writers go first, while a constructor that
    wants the mutex exclusively has been entered.  An unlocked mutex that
    no writer waits for never makes a constructor wait. *)
Theorem blocked_only_by_a_holder s (p : nat) k (c : nat) :
  reachable s -> objects s !! p = Some (Constructing k c) ->
  step s (complete p) = Blocked ->
  (exists (p' : nat) q,
     objects s !! p' = Some (Pointer q) /\ m_shptr q = Some c /\
     (lock_member_of (class_of q) = m_unique_lock \/
      lock_member_of (class_of q) = m_shared_lock /\
      lock_member_of k = m_unique_lock)) \/
  (lock_member_of k = m_shared_lock /\ writers_first = true /\
   exists (p' : nat) k',
     objects s !! p' = Some (Constructing k' c) /\
     lock_member_of k' = m_unique_lock).
Proof.
  intros Hs Hp Hstep. apply reachable_invariant in Hs as Hinv.
  destruct (constructing_cell T s p k c Hinv Hp) as (x & Hx & _).
  simpl in Hstep. rewrite Hp, Hx in Hstep.
  destruct (lock_member_acquire _ _ _) eqn:Hacq; [discriminate|].
  destruct (writer (m_mutex1 x)) eqn:Hw.
  - destruct (writer_holder T s c x Hinv Hx Hw) as (p' & q & Hp' & Hq & Hl).
    left. eauto 10.
  - destruct (lock_member_of k) eqn:Hk; simpl in Hacq.
    + unfold lock in Hacq. rewrite Hw in Hacq. simpl in Hacq.
      destruct (readers (m_mutex1 x)) eqn:Hr; [discriminate|].
      destruct (reader_holder s c x Hinv Hx) as (p' & q & Hp' & Hq & Hl);
        [lia|]. left. eauto 10.
    + unfold lock_shared in Hacq. rewrite Hw in Hacq. simpl in Hacq.
      destruct (writer_waiting s c) eqn:Hwait; [|discriminate].
      apply writer_waiting_true in Hwait as (Hf & p' & k' & Hp' & Hk').
      right. eauto 10.
    + discriminate.
Qed.

(** X4: a write through a valid pointer with mutable access is read back
    through the same pointer; it changes the payload of that one cell only,
    and neither the objects nor any mutex. *)
Theorem store_then_load s (p : nat) q (v : T) :
  reachable s -> objects s !! p = Some (Pointer q) ->
  is_valid q = true -> dereference_type (class_of q) = mutable_access ->
  exists s',
    step s (store p v) = Ok s' /\
    load s' q = Returned (Some v) /\
    objects s' = objects s /\ mutexes s' = mutexes s /\
    forall c' : nat, m_shptr q <> Some c' -> cells s' !! c' = cells s !! c'.
Proof.
  intros Hs Hp Hv Hk. apply reachable_invariant in Hs as Hinv.
  unfold is_valid in Hv. destruct (m_shptr q) as [c|] eqn:Hq; [|discriminate].
  destruct (pointer_cell T s p q c Hinv Hp Hq) as (x & Hx & _).
  assert (operator_star q = Returned c) as Hstar.
  { unfold operator_star, is_valid. now rewrite Hq. }
  eexists. split; [simpl; rewrite Hp, Hk, Hstar; reflexivity|].
  unfold load, mutexes. rewrite Hstar. simpl.
  rewrite list_lookup_alter_eq, Hx. simpl.
  repeat split; try reflexivity.
  - now apply fmap_mutex_alter.
  - intros c' Hne. apply list_lookup_alter_ne. congruence.
Qed.

(** A valid pointer to a cell whose mutex another pointer holds
    exclusively is that pointer. *)
Lemma pointer_to_held_cell s (p p' c : nat) q q' :
  invariant s ->
  objects s !! p = Some (Pointer q) -> m_shptr q = Some c ->
  lock_member_of (class_of q) = m_unique_lock ->
  objects s !! p' = Some (Pointer q') -> m_shptr q' = Some c ->
  p' = p.
Proof.
  intros Hinv Hp Hq Hl Hp' Hq'.
  destruct (decide (p' = p)) as [|Hne]; [assumption|exfalso].
  destruct (pointer_cell T s p q c Hinv Hp Hq) as (x & Hx & Hr & Hm & Hok).
  destruct (pointer_cell T s p' q' c Hinv Hp' Hq') as (? & ? & Hr' & Hm' & _).
  simplify_eq.
  pose proof (exclusive_holder_mutex T s p q c x Hinv Hp Hq Hl Hx) as Hmx.
  destruct (lock_member_of (class_of q')) eqn:Hl'.
  - pose proof (sum_list_with_two (holds m_unique_lock c) _ _ _ _ _
                  Hne Hp' Hp) as Hle.
    rewrite Hl in Hm. simpl in Hm, Hm', Hle.
    rewrite ?Hl, ?Hl', ?Hm, ?Hm' in Hle. simpl in Hle.
    rewrite !decide_True in Hle by reflexivity.
    destruct Hok as (_ & _ & Hu & _). unfold count in Hu.
    destruct (writer (m_mutex1 x)); lia.
  - destruct (shared_holder_mutex T s p' q' c x Hinv Hp' Hq' Hl' Hx)
      as [Hw _].
    rewrite Hmx in Hw. discriminate.
  - rewrite Hr in Hr'.
    destruct (class_of q), (class_of q'); simpl in *; congruence.
Qed.

(** X5: while a valid pointer with a [unique_lock] member to a cell exists,
    it is the only valid pointer to that cell, of any class; and the
    constructor of any other pointer to the cell waits. *)
Theorem exclusive_holder_is_alone s (p c : nat) q :
  reachable s -> objects s !! p = Some (Pointer q) -> m_shptr q = Some c ->
  lock_member_of (class_of q) = m_unique_lock ->
  (forall (p' : nat) q',
     objects s !! p' = Some (Pointer q') -> m_shptr q' = Some c -> p' = p) /\
  count (alive [class_of q] c) s = 1 /\
  (forall (p' : nat) k,
     objects s !! p' = Some (Constructing k c) ->
     step s (complete p') = Blocked).
Proof.
  intros Hs Hp Hq Hl. apply reachable_invariant in Hs as Hinv.
  split; [|split].
  - intros p' q' Hp' Hq'. eapply pointer_to_held_cell; eauto.
  - assert (count (alive [class_of q] c) s <= 1) as Hle.
    { apply alive_at_most_one; [assumption|].
      intros k Hk. apply list_elem_of_singleton in Hk as ->. exact Hl. }
    pose proof (sum_list_with_lookup (alive [class_of q] c) _ _ _ Hp) as Hge.
    simpl in Hge. rewrite (decide_True (P := m_shptr q = Some c)) in Hge
      by assumption.
    rewrite decide_True in Hge by (apply list_elem_of_singleton; reflexivity).
    unfold count in *. lia.
  - intros p' k Hp'.
    destruct (pointer_cell T s p q c Hinv Hp Hq) as (x & Hx & Hr & _).
    destruct (constructing_cell T s p' k c Hinv Hp') as (? & ? & Hr' & _).
    simplify_eq.
    eapply unique_lock_excludes; eauto. rewrite Hr in Hr'.
    destruct (class_of q), k; simpl in *; congruence.
Qed.

(** X6: while a valid pointer with const access to a cell exists, of any of
    the four const classes, no valid pointer with mutable access to that
    cell exists, and the constructor of one waits. *)
Theorem const_pointer_excludes_mutable s (p c : nat) q :
  reachable s -> objects s !! p = Some (Pointer q) -> m_shptr q = Some c ->
  dereference_type (class_of q) = const_access ->
  (forall (p' : nat) q',
     objects s !! p' = Some (Pointer q') -> m_shptr q' = Some c ->
     dereference_type (class_of q') = const_access) /\
  (forall (p' : nat) k,
     objects s !! p' = Some (Constructing k c) ->
     dereference_type k = mutable_access ->
     step s (complete p') = Blocked).
Proof.
  intros Hs Hp Hq Hk. apply reachable_invariant in Hs as Hinv.
  destruct (pointer_cell T s p q c Hinv Hp Hq) as (x & Hx & Hr & _).
  split.
  - intros p' q' Hp' Hq'.
    destruct (dereference_type (class_of q')) eqn:Hk'; [exfalso|reflexivity].
    destruct (pointer_cell T s p' q' c Hinv Hp' Hq') as (? & ? & Hr' & _).
    simplify_eq.
    assert (lock_member_of (class_of q') = m_unique_lock) as Hl'.
    { destruct (class_of q'); simpl in *; congruence. }
    assert (p = p') as ->
      by (eapply (pointer_to_held_cell s p' p c q' q); eauto).
    simplify_eq. congruence.
  - intros p' k Hp' Hk'.
    destruct (constructing_cell T s p' k c Hinv Hp') as (? & ? & Hr' & _).
    simplify_eq.
    assert (lock_member_of k = m_unique_lock) as Hlk.
    { destruct k; simpl in *; congruence. }
    destruct (lock_member_of (class_of q)) eqn:Hl.
    + eapply unique_lock_excludes; eauto. congruence.
    + eapply shared_lock_excludes; eauto.
    + rewrite Hr in Hr'.
      destruct (class_of q), k; simpl in *; congruence.
Qed.

(** X7: a requester holds no lock.  Copying it, assigning to it from a
    requester of its class, destroying it and calling its member functions
    never wait and leave every mutex as it was. *)
Theorem requesters_take_no_lock s (r : nat) (k : requester_class) (c : nat) :
  objects s !! r = Some (Requester k c) ->
  (exists s', step s (copy_requester r) = Ok s' /\ mutexes s' = mutexes s /\
              objects s' = objects s ++ [Requester k c]) /\
  (forall r' c' : nat,
     objects s !! r' = Some (Requester k c') ->
     exists s', step s (assign_requester r r') = Ok s' /\
                mutexes s' = mutexes s /\
                objects s' !! r = Some (Requester k c')) /\
  (forall (f : requester_method) pk,
     member_function k f = Some pk ->
     exists s', step s (call r f) = Ok s' /\ mutexes s' = mutexes s /\
                objects s' = objects s ++ [Constructing pk c]) /\
  (exists s', step s (destroy r) = Ok s' /\ mutexes s' = mutexes s).
Proof.
  intros Hr. split; [|split; [|split]].
  - eexists. simpl. rewrite Hr. simpl. split; [reflexivity|].
    unfold mutexes, shared_ptr_copy. simpl.
    rewrite fmap_mutex_alter by (intros; reflexivity). auto.
  - intros r' c' Hr'. eexists. simpl. rewrite Hr, Hr'.
    rewrite decide_True by reflexivity. simpl. split; [reflexivity|].
    unfold mutexes, shared_ptr_copy, shared_ptr_release. simpl.
    rewrite !fmap_mutex_alter by (intros; reflexivity). split; [reflexivity|].
    apply list_lookup_insert_eq. eapply lookup_lt_Some, Hr.
  - intros f pk Hf. eexists. simpl. rewrite Hr, Hf. split; [reflexivity|].
    unfold mutexes, shared_ptr_copy. simpl.
    rewrite !fmap_mutex_alter by (intros; reflexivity). auto.
  - eexists. simpl. rewrite Hr. split; [reflexivity|].
    unfold mutexes, shared_ptr_release. simpl.
    now rewrite fmap_mutex_alter by (intros; reflexivity).
Qed.

(** X8: the destructor of a pointer that has been moved from releases
    nothing.  Move-constructing from a pointer and destroying the source
    leaves every cell as it was, lock and use count included, with the new
    object in possession of what the source had. *)
Theorem moved_from_pointer_releases_nothing s (p : nat) q :
  objects s !! p = Some (Pointer q) ->
  (reachable s -> is_valid q = false ->
   step s (destroy p) =
     Ok {| cells := cells s; objects := <[p := Destroyed]> (objects s) |}) /\
  exists s1 s2,
    step s (move_construct p) = Ok s1 /\ step s1 (destroy p) = Ok s2 /\
    cells s2 = cells s /\
    objects s2 !! p = Some Destroyed /\
    objects s2 !! length (objects s) = Some (Pointer q).
Proof.
  intros Hp. assert (p < length (objects s)) as Hlt
    by (eapply lookup_lt_Some, Hp).
  split.
  - intros Hs Hv. apply reachable_invariant in Hs as [_ Ho].
    specialize (Ho _ _ Hp). simpl in Ho. simpl. rewrite Hp.
    unfold is_valid in Hv. destruct (m_shptr q); [discriminate|].
    now rewrite Ho.
  - eexists. eexists. split; [apply move_construct_step, Hp|].
    simpl. rewrite lookup_app_l by now rewrite length_insert.
    rewrite list_lookup_insert_eq by assumption. simpl.
    split; [reflexivity|]. simpl. split; [reflexivity|]. split.
    + rewrite insert_app_l by now rewrite length_insert.
      rewrite lookup_app_l by now rewrite !length_insert.
      now apply list_lookup_insert_eq; rewrite length_insert.
    + rewrite insert_app_l by now rewrite length_insert.
      rewrite list_lookup_middle; [reflexivity|]. now rewrite !length_insert.
Qed.

Lemma requester_cell s (p : nat) (r : requester_class) (c : nat) :
  invariant s -> objects s !! p = Some (Requester r c) ->
  exists x, cells s !! c = Some x /\ made_by x = r /\ cell_ok s c x.
Proof.
  intros [Hc Ho] Hp. specialize (Ho _ _ Hp). simpl in Ho.
  apply maker_Some in Ho as (x & Hx & Hr). eauto 10.
Qed.

(** Taking and giving back the mutex through a lock member leaves it as it
    was. *)
Lemma acquire_then_release (l : lock_member) (w : bool)
    (m m' : shared_timed_mutex) :
  lock_member_acquire l w m = Some m' -> lock_member_release l m' = m.
Proof.
  intros H. apply lock_member_acquire_granted in H. revert H.
  destruct m as [w0 n], l; simpl.
  - unfold lock. simpl. destruct w0; simpl; [discriminate|].
    destruct n; simpl; [|discriminate]. now intros [= <-].
  - unfold lock_shared. simpl. destruct w0; [discriminate|]. now intros [= <-].
  - now intros [= <-].
Qed.

(** X9: calling a member function of a requester, letting the pointer's
    constructor return and destroying the pointer leaves every cell as it
    was before the call: payload, mutex, use count and deletions. *)
Theorem pointer_lifetime_restores_cells s s1 s2 s3 (r : nat)
    (k : requester_class) (c : nat) (f : requester_method) :
  reachable s -> objects s !! r = Some (Requester k c) ->
  step s (call r f) = Ok s1 ->
  step s1 (complete (length (objects s))) = Ok s2 ->
  step s2 (destroy (length (objects s))) = Ok s3 ->
  cells s3 = cells s.
Proof.
  intros Hs Hr Hcall Hcomplete Hdestroy.
  apply reachable_invariant in Hs as Hinv.
  destruct (requester_cell s r k c Hinv Hr) as (x & Hx & _ & Hok).
  assert (0 < use_count x) as Hpos.
  { destruct Hok as (Hu & _). rewrite Hu.
    pose proof (sum_list_with_lookup (refs c) _ _ _ Hr) as Hle.
    simpl in Hle. rewrite decide_True in Hle by reflexivity. exact Hle. }
  simpl in Hcall. rewrite Hr in Hcall.
  destruct (member_function k f) as [pk|]; [|discriminate].
  injection Hcall as <-. simpl in Hcomplete.
  rewrite list_lookup_middle in Hcomplete by reflexivity.
  unfold shared_ptr_copy in Hcomplete at 1 2.
  rewrite !list_lookup_alter_eq, Hx in Hcomplete. simpl in Hcomplete.
  destruct (lock_member_acquire _ _ _) as [m|] eqn:Hacq; [|discriminate].
  injection Hcomplete as <-. simpl in Hdestroy.
  rewrite list_lookup_insert_eq in Hdestroy
    by (rewrite length_app; simpl; lia).
  injection Hdestroy as <-. simpl.
  apply acquire_then_release in Hacq.
  apply list_eq. intros i. destruct (decide (c = i)) as [<-|Hne].
  - destruct x as [v mx uc d mk]. simpl in *.
    destruct uc as [|uc]; [lia|].
    unfold shared_ptr_release, shared_ptr_copy.
    destruct (lock_member_of pk); simpl in *;
      unfold release_mutex;
      rewrite !list_lookup_alter_eq, Hx; simpl;
      unfold shared_ptr_released, shared_ptr_copied, with_mutex; simpl;
      now rewrite Hacq.
  - unfold shared_ptr_release, shared_ptr_copy.
    destruct (lock_member_of pk); simpl;
      unfold release_mutex; now rewrite !list_lookup_alter_ne.
Qed.


End MoreFacts.

(** ** The further theorems at concrete programs *)

Section MoreExamples.

Local Existing Instance writers_go_first.

Lemma deleted_cell_is_unlocked_witness :
  exists x, cells (after demo_two_steps) !! 0 = Some x /\
            deletions x = 1 /\ m_mutex1 x = unlocked.
Proof.
  eexists. split; [reflexivity|]. split; [reflexivity|].
  destruct (deleted_cell_is_unlocked nat (after demo_two_steps) 0 _
              (after_reachable nat demo_two_steps) eq_refl
              ltac:(simpl; lia)) as (_ & Hm & _).
  exact Hm.
Defined.

Lemma pure_immutable_cell_never_locked_witness :
  exists x, cells (after demo_lock_free) !! 0 = Some x /\
            m_mutex1 x = unlocked.
Proof.
  eexists. split; [reflexivity|].
  destruct (pure_immutable_cell_never_locked nat (after demo_lock_free) 0 _
              (after_reachable nat demo_lock_free) eq_refl eq_refl)
    as (Hm & _).
  exact Hm.
Defined.

(** The second [TAsyncSharedPointer] waits for the one that is alive; the
    third reader of a pure cell waits, with no writer alive, for the writer
    that is under construction. *)
Lemma blocked_only_by_a_holder_witness :
  (exists (p' : nat) q,
     objects (after demo_exclusive) !! p' = Some (Pointer q) /\
     m_shptr q = Some 0) /\
  (exists (p' : nat) k',
     objects (after demo_readers) !! p' = Some (Constructing k' 0) /\
     lock_member_of k' = m_unique_lock).
Proof.
  split.
  - destruct (blocked_only_by_a_holder nat (after demo_exclusive) 2 _ 0
                (after_reachable nat demo_exclusive) eq_refl eq_refl)
      as [(p' & q & Hp & Hq & _)|(Hk & _)]; [eauto|discriminate].
  - destruct (blocked_only_by_a_holder nat (impl := writers_go_first)
                (after demo_readers) 4 _ 0
                (after_reachable nat demo_readers) eq_refl eq_refl)
      as [(p' & q & Hp & Hq & [Hl|[_ Hk]])|(_ & _ & Hw)];
      [exfalso|discriminate|exact Hw].
    assert (p' < 5) as Hlt by (apply lookup_lt_Some in Hp; exact Hp).
    destruct p' as [|[|[|[|[|p']]]]]; simpl in Hp; try lia;
      inversion Hp; subst; discriminate.
Defined.

Lemma store_then_load_witness :
  exists s', step (after demo_pointer) (store 1 9) = Ok s' /\
             load s' {| class_of := TAsyncSharedPointer; m_shptr := Some 0;
                        m_lock := Some 0 |} = Returned (Some 9).
Proof.
  destruct (store_then_load nat (after demo_pointer) 1 _ 9
              (after_reachable nat demo_pointer) eq_refl eq_refl eq_refl)
    as (s' & Hstep & Hload & _).
  eauto.
Defined.

Lemma exclusive_holder_is_alone_witness :
  count (alive [TAsyncSharedPointer] 0) (after demo_exclusive) = 1 /\
  step (after demo_exclusive) (complete 2) = Blocked.
Proof.
  destruct (exclusive_holder_is_alone nat (after demo_exclusive) 1 0 _
              (after_reachable nat demo_exclusive) eq_refl eq_refl eq_refl)
    as (_ & Hone & Hwait).
  split; [exact Hone|exact (Hwait 2 _ eq_refl)].
Defined.

Lemma const_pointer_excludes_mutable_witness :
  step (after demo_readers) (complete 3) = Blocked.
Proof.
  destruct (const_pointer_excludes_mutable nat (impl := writers_go_first)
              (after demo_readers) 1 0 _
              (after_reachable nat demo_readers) eq_refl eq_refl eq_refl)
    as (_ & Hwait).
  exact (Hwait 3 _ eq_refl eq_refl).
Defined.

Lemma requesters_take_no_lock_witness :
  exists s', step (after demo_pointer) (copy_requester 0) = Ok s' /\
             mutexes s' = mutexes (after demo_pointer).
Proof.
  destruct (requesters_take_no_lock nat (after demo_pointer) 0 _ 0 eq_refl)
    as ((s' & Hstep & Hm & _) & _).
  eauto.
Defined.

Lemma moved_from_pointer_releases_nothing_witness :
  exists s1 s2,
    step (after demo_pointer) (move_construct 1) = Ok s1 /\
    step s1 (destroy 1) = Ok s2 /\
    cells s2 = cells (after demo_pointer).
Proof.
  destruct (moved_from_pointer_releases_nothing nat (after demo_pointer) 1 _
              eq_refl) as (_ & s1 & s2 & H1 & H2 & Hc & _).
  eauto.
Defined.

Lemma pointer_lifetime_restores_cells_witness :
  cells (after [make_asyncshared 5; call 0 ptr; complete 1; destroy 1])
  = cells (after [make_asyncshared 5]).
Proof.
  exact (pointer_lifetime_restores_cells nat
           (after [make_asyncshared 5])
           (after [make_asyncshared 5; call 0 ptr])
           (after [make_asyncshared 5; call 0 ptr; complete 1])
           (after [make_asyncshared 5; call 0 ptr; complete 1; destroy 1])
           0 _ 0 ptr
           (after_reachable nat _) eq_refl eq_refl eq_refl eq_refl).
Defined.


End MoreExamples.

End AsyncSharedFacts.

(** * Properties of programs over [TRefCountedPointer] *)

Module RefCountedProgramFacts.

Import RefCounted RefCountedProgram AsyncSharedFacts.

Section Facts.

(** The target type, whose destructor is taken to leave the free store
    alone: a target that itself holds counted pointers, as a node of a
    linked list does, is not covered by what follows. *)
Variable X : Type.

Context {target : Target X}.

Hypothesis target_leaves_store :
  forall (x : X) (h : free_store X), target_destructor x h = h.

Implicit Types (s : state X) (h : free_store X) (p q r : TRefCountedPointer).
Implicit Types (a : nat) (o : TRefWithTargetObj X).

(** ** Counters within the range of [int] *)

Lemma int_wrap_small (z : Z) :
  (INT_MIN <= z <= INT_MAX)%Z -> int_wrap z = z.
Proof.
  unfold int_wrap, INT_MIN, INT_MAX. intros Hz.
  rewrite Z.mod_small by lia. lia.
Qed.

Lemma points_to_le_one a (p : option TRefCountedPointer) : points_to a p <= 1.
Proof. destruct p as [q|]; simpl; [case_decide|]; lia. Qed.

Lemma owners_le_length a s : owners a s <= length (pointers s).
Proof.
  unfold owners. induction (pointers s) as [|p l IH]; simpl; [lia|].
  pose proof (points_to_le_one a p). lia.
Qed.

Lemma owners_within_int a s :
  countable s -> (Z.of_nat (owners a s) < INT_MAX)%Z.
Proof.
  unfold countable. pose proof (owners_le_length a s). lia.
Qed.

(** No step removes a pointer object from the list: a destroyed one leaves
    its slot behind. *)
Lemma step_length s s' (act : action X) :
  step s act = Some s' -> length (pointers s) <= length (pointers s').
Proof.
  destruct act as [| |x|r|dst src|dst|i|i]; simpl; intros Hstep;
    repeat match type of Hstep with
      | context [pointer_at ?s ?i] =>
          destruct (pointer_at s i); [|discriminate]
      | context [let '(_, _) := ?e in _] => destruct e
      end;
    injection Hstep as <-; simpl;
    rewrite ?length_app, ?length_insert; simpl; lia.
Qed.

Lemma step_countable s s' (act : action X) :
  step s act = Some s' -> countable s' -> countable s.
Proof.
  unfold countable. intros Hstep%step_length. lia.
Qed.

(** ** The two primitives, seen from one address *)

Lemma acquire_pointer (c : option nat) h :
  snd (acquire c h) = {| m_ref_with_target_obj_ptr := c |}.
Proof.
  unfold acquire. destruct c as [a0|]; [|reflexivity].
  destruct (h !! a0) as [[o|]|]; reflexivity.
Qed.

Lemma acquire_slot (c : option nat) h a (n : nat) :
  slot_ok (h !! a) n -> (c = Some a -> 0 < n) ->
  (Z.of_nat n < INT_MAX)%Z ->
  slot_ok (fst (acquire c h) !! a) (n + one_if c a).
Proof.
  unfold acquire, one_if, free_store in *. intros Hok Hpos Hn.
  destruct c as [a0|].
  - destruct (decide (Some a0 = Some a)) as [[= ->]|Hne].
    + specialize (Hpos eq_refl).
      destruct (h !! a) as [[o|]|] eqn:Ha; cbn [fst slot_ok] in *; try lia.
      rewrite list_lookup_insert_eq by (eapply lookup_lt_Some, Ha).
      cbn. rewrite int_wrap_small by (unfold INT_MIN, INT_MAX in *; lia).
      lia.
    + rewrite Nat.add_0_r.
      destruct (h !! a0) as [[o|]|] eqn:Ha0; cbn [fst]; try assumption.
      rewrite list_lookup_insert_ne by congruence. assumption.
  - rewrite decide_False by discriminate. now rewrite Nat.add_0_r.
Qed.

Lemma dorelease_slot (c : option nat) h a (n : nat) :
  slot_ok (h !! a) n -> (c = Some a -> 0 < n) ->
  (Z.of_nat n <= INT_MAX)%Z ->
  slot_ok (dorelease c h !! a) (n - one_if c a).
Proof.
  unfold dorelease, one_if, free_store in *. intros Hok Hpos Hn.
  destruct c as [a0|].
  - destruct (decide (Some a0 = Some a)) as [[= ->]|Hne].
    + specialize (Hpos eq_refl).
      destruct (h !! a) as [[o|]|] eqn:Ha; cbn [slot_ok] in *; try lia.
      unfold use_count. destruct (Z.eqb_spec 1 (m_counter o)).
      * rewrite target_leaves_store.
        rewrite list_lookup_insert_eq by (eapply lookup_lt_Some, Ha).
        cbn. lia.
      * rewrite list_lookup_insert_eq by (eapply lookup_lt_Some, Ha).
        cbn. rewrite int_wrap_small by (unfold INT_MIN, INT_MAX in *; lia).
        lia.
    + rewrite Nat.sub_0_r.
      destruct (h !! a0) as [[o|]|] eqn:Ha0; try assumption.
      destruct (1 =? use_count o)%Z; rewrite ?target_leaves_store;
        rewrite list_lookup_insert_ne by congruence; assumption.
  - rewrite decide_False by discriminate. now rewrite Nat.sub_0_r.
Qed.

(** ** The invariant *)

Lemma pointer_at_Some s (i : nat) p :
  pointer_at s i = Some p <-> pointers s !! i = Some (Some p).
Proof.
  unfold pointer_at. destruct (pointers s !! i) as [[p'|]|]; split;
    intros H; simplify_eq; reflexivity.
Qed.

Lemma owner_counted s (i : nat) p a :
  pointers s !! i = Some (Some p) -> m_ref_with_target_obj_ptr p = Some a ->
  0 < owners a s.
Proof.
  intros Hi Hp.
  pose proof (sum_list_with_lookup (points_to a) _ _ _ Hi) as Hle.
  simpl in Hle. rewrite decide_True in Hle by assumption. exact Hle.
Qed.

Lemma owners_snoc s h (p : option TRefCountedPointer) a :
  owners a {| holders := h; pointers := pointers s ++ [p] |}
  = owners a s + points_to a p.
Proof. unfold owners. simpl. apply sum_list_with_snoc. Qed.

Lemma owners_insert s h (i : nat) (p p' : option TRefCountedPointer) a :
  pointers s !! i = Some p ->
  owners a {| holders := h; pointers := <[i := p']> (pointers s) |}
  = owners a s - points_to a p + points_to a p'.
Proof.
  intros Hi. unfold owners. simpl.
  pose proof (sum_list_with_insert (points_to a) _ _ _ p' Hi).
  pose proof (sum_list_with_lookup (points_to a) _ _ _ Hi). lia.
Qed.

Lemma counted_step_invariant s s' (act : action X) :
  invariant s -> countable s' -> step s act = Some s' -> invariant s'.
Proof.
  intros Hinv Hlen Hstep a. specialize (Hinv a).
  pose proof (owners_within_int a s (step_countable s s' act Hstep Hlen))
    as Hn.
  destruct act as [| |x|r|dst src|dst|i|i]; simpl in Hstep;
    unfold free_store in *.
  - injection Hstep as <-. rewrite owners_snoc. simpl.
    now rewrite Nat.add_0_r.
  - injection Hstep as <-. rewrite owners_snoc. simpl.
    now rewrite Nat.add_0_r.
  - injection Hstep as <-. rewrite owners_snoc. simpl.
    destruct (decide (Some (length (holders s)) = Some a)) as [[= <-]|Hne].
    + rewrite list_lookup_middle by reflexivity.
      rewrite lookup_ge_None_2 in Hinv by lia. simpl in *. lia.
    + rewrite Nat.add_0_r.
      destruct (decide (a < length (holders s))).
      * now rewrite lookup_app_l.
      * rewrite lookup_ge_None_2 in Hinv by lia.
        rewrite lookup_ge_None_2; [exact Hinv|].
        rewrite length_app. simpl.
        assert (a <> length (holders s)) by congruence. lia.
  - destruct (pointer_at s r) as [p|] eqn:Hr; [|discriminate].
    apply pointer_at_Some in Hr. unfold copy_constructor in Hstep.
    destruct (acquire _ _) as [h q] eqn:Hacq. injection Hstep as <-.
    rewrite owners_snoc. simpl.
    pose proof (acquire_pointer (m_ref_with_target_obj_ptr p) (holders s))
      as Hq.
    pose proof (acquire_slot (m_ref_with_target_obj_ptr p) (holders s) a
                  (owners a s) Hinv (owner_counted s r p a Hr) Hn) as Hslot.
    rewrite Hacq in Hq, Hslot. simpl in Hq, Hslot. now rewrite Hq.
  - destruct (pointer_at s dst) as [p|] eqn:Hd; [|discriminate].
    destruct (pointer_at s src) as [r|] eqn:Hr; [|discriminate].
    apply pointer_at_Some in Hd, Hr. unfold operator_assign in Hstep.
    case_bool_decide as Hsame.
    + injection Hstep as <-. subst src. simplify_eq.
      rewrite (owners_insert s _ dst (Some p) (Some p) a Hd).
      pose proof (sum_list_with_lookup (points_to a) _ _ _ Hd).
      unfold owners in *. replace (_ - _ + _) with
        (sum_list_with (points_to a) (pointers s)) by lia. exact Hinv.
    + destruct (acquire _ _) as [h q] eqn:Hacq. injection Hstep as <-.
      pose proof (acquire_pointer (m_ref_with_target_obj_ptr r) (holders s))
        as Hq.
      pose proof (acquire_slot (m_ref_with_target_obj_ptr r) (holders s) a
                    (owners a s) Hinv (owner_counted s src r a Hr) Hn)
        as Hslot.
      rewrite Hacq in Hq, Hslot. simpl in Hq, Hslot. subst q.
      rewrite (owners_insert s _ dst (Some p) _ a Hd). simpl.
      pose proof (dorelease_slot (m_ref_with_target_obj_ptr p) h a _ Hslot)
        as Hrel.
      pose proof (owner_counted s dst p a Hd) as Hpos.
      unfold one_if in *. simpl.
      destruct (decide (m_ref_with_target_obj_ptr p = Some a)) as [Hp|Hp].
      * specialize (Hpos Hp).
        replace (owners a s - 1 + _) with
          (owners a s
           + (if decide (m_ref_with_target_obj_ptr r = Some a) then 1 else 0)
           - 1) by lia.
        apply Hrel; [lia|]. case_decide; lia.
      * rewrite Nat.sub_0_r in *. apply Hrel; [congruence|].
        case_decide; lia.
  - destruct (pointer_at s dst) as [p|] eqn:Hd; [|discriminate].
    apply pointer_at_Some in Hd. simpl in Hstep. injection Hstep as <-.
    rewrite (owners_insert s _ dst (Some p) _ a Hd). simpl.
    rewrite Nat.add_0_r.
    apply (dorelease_slot (m_ref_with_target_obj_ptr p) (holders s) a _ Hinv);
      [apply (owner_counted s dst p a Hd)|lia].
  - destruct (pointer_at s i) as [p|] eqn:Hi; [|discriminate].
    apply pointer_at_Some in Hi. simpl in Hstep. injection Hstep as <-.
    rewrite (owners_insert s _ i (Some p) _ a Hi). simpl.
    rewrite Nat.add_0_r.
    apply (dorelease_slot (m_ref_with_target_obj_ptr p) (holders s) a _ Hinv);
      [apply (owner_counted s i p a Hi)|lia].
  - destruct (pointer_at s i) as [p|] eqn:Hi; [|discriminate].
    apply pointer_at_Some in Hi. injection Hstep as <-.
    rewrite (owners_insert s _ i (Some p) _ a Hi). simpl.
    rewrite Nat.add_0_r.
    apply (dorelease_slot (m_ref_with_target_obj_ptr p) (holders s) a _ Hinv);
      [apply (owner_counted s i p a Hi)|lia].
Qed.

Lemma counted_reachable_invariant s :
  reachable s -> countable s -> invariant s.
Proof.
  induction 1 as [|s s' act _ IH Hstep]; intros Hlen.
  - intros a. simpl. reflexivity.
  - eapply counted_step_invariant; eauto using step_countable.
Qed.

Lemma run_counted_reachable s s' (tr : list (action X)) :
  reachable s -> run s tr = Some s' -> reachable s'.
Proof.
  revert s. induction tr as [|act tr IH]; simpl; intros s Hs Hrun.
  - now injection Hrun as <-.
  - destruct (step s act) as [s1|] eqn:Ha; [|discriminate].
    eapply IH; [|exact Hrun]. eapply reachable_step; eauto.
Qed.

Lemma after_counted_reachable (tr : list (action X)) : reachable (after tr).
Proof.
  unfold after. destruct (run init tr) as [s|] eqn:E.
  - eapply run_counted_reachable; [apply reachable_init|exact E].
  - apply reachable_init.
Qed.

(** The target of a pointer object of a reachable state is a live holder
    whose counter is the number of its owners. *)
Lemma owned_holder s (i : nat) p a :
  reachable s -> countable s -> pointers s !! i = Some (Some p) ->
  m_ref_with_target_obj_ptr p = Some a ->
  exists o, holders s !! a = Some (Some o) /\
            m_counter o = Z.of_nat (owners a s) /\ 0 < owners a s.
Proof.
  intros Hs Hlen Hi Hp. apply counted_reachable_invariant in Hs; [|exact Hlen].
  specialize (Hs a). pose proof (owner_counted s i p a Hi Hp) as Hpos.
  destruct (holders s !! a) as [[o|]|]; simpl in Hs; try lia.
  exists o. tauto.
Qed.

(** X10: for a target whose destructor leaves the free store alone, and
    as long as the program has constructed fewer than [INT_MAX] pointer
    objects, a pointer object never dangles: in every reachable state,
    [operator*] and [operator->] of a pointer that is not null return the
    address of a holder that has not been deleted. *)
Theorem pointer_never_dangles s (i : nat) p a :
  reachable s -> countable s -> pointers s !! i = Some (Some p) ->
  m_ref_with_target_obj_ptr p = Some a ->
  operator_star p = Returned a /\ operator_arrow p = Returned a /\
  get p = Some a /\
  exists o, holders s !! a = Some (Some o).
Proof.
  intros Hs Hlen Hi Hp. unfold operator_star, operator_arrow, get. rewrite Hp.
  repeat split; try reflexivity.
  destruct (owned_holder s i p a Hs Hlen Hi Hp) as (o & Ho & _). eauto.
Qed.

(** X11: for a target whose destructor leaves the free store alone, and
    as long as the program has constructed fewer than [INT_MAX] pointer
    objects, the counter of a live holder is the number of pointer objects
    that point to it, at least 1 and below [INT_MAX], so that the assertion
    of [decrement] holds whenever it is reached, no counter overflows and
    no holder outlives its owners; nothing points to a deleted holder or to
    an address that was never allocated. *)
Theorem counter_counts_owners s a :
  reachable s -> countable s ->
  (forall o, holders s !! a = Some (Some o) ->
             use_count o = Z.of_nat (owners a s) /\
             (1 <= use_count o < INT_MAX)%Z) /\
  (holders s !! a = Some None \/ holders s !! a = None -> owners a s = 0).
Proof.
  intros Hs Hlen. pose proof (owners_within_int a s Hlen) as Hn.
  apply counted_reachable_invariant in Hs; [|exact Hlen]. specialize (Hs a).
  split.
  - intros o Ho. rewrite Ho in Hs. simpl in Hs. unfold use_count. lia.
  - intros [Ho|Ho]; rewrite Ho in Hs; exact Hs.
Qed.

(** X12: for a target whose destructor leaves the free store alone, and
    as long as the program has constructed fewer than [INT_MAX] pointer
    objects, [unique()] is true exactly when the pointer is null or is the
    only pointer object that points to its target. *)
Theorem unique_means_sole_owner s (i : nat) p :
  reachable s -> countable s -> pointers s !! i = Some (Some p) ->
  unique p (holders s) = true <->
  m_ref_with_target_obj_ptr p = None \/
  exists a, m_ref_with_target_obj_ptr p = Some a /\ owners a s = 1.
Proof.
  intros Hs Hlen Hi. unfold unique.
  destruct (m_ref_with_target_obj_ptr p) as [a|] eqn:Hp.
  - destruct (owned_holder s i p a Hs Hlen Hi Hp) as (o & Ho & Hc & Hpos).
    unfold free_store in *. rewrite Ho. unfold use_count. split.
    + intros H%Z.eqb_eq. right. exists a. split; [reflexivity|lia].
    + intros [|(a' & [= <-] & H1)]; [discriminate|].
      apply Z.eqb_eq. lia.
  - split; auto.
Qed.

Lemma decrement_increment o :
  (INT_MIN <= m_counter o < INT_MAX)%Z -> decrement (increment o) = o.
Proof.
  destruct o as [c x]. unfold decrement, increment. simpl. intros Hc.
  f_equal. rewrite (int_wrap_small (c + 1)) by lia.
  rewrite int_wrap_small by lia. lia.
Qed.

(** Acquiring a live holder once more and releasing it again gives the free
    store back. *)
Lemma acquire_then_dorelease h a o :
  h !! a = Some (Some o) -> (1 <= m_counter o < INT_MAX)%Z ->
  dorelease (Some a) (fst (acquire (Some a) h)) = h.
Proof.
  intros Ho Hc. unfold acquire, dorelease, free_store in *. rewrite Ho.
  cbn [fst]. rewrite list_lookup_insert_eq by (eapply lookup_lt_Some, Ho).
  unfold use_count. destruct (Z.eqb_spec 1 (m_counter (increment o))) as [E|_].
  - simpl in E. rewrite int_wrap_small in E
      by (unfold INT_MIN, INT_MAX in *; lia).
    lia.
  - rewrite list_insert_insert_eq, decrement_increment
      by (unfold INT_MIN in *; lia).
    now apply list_insert_id.
Qed.

(** X13: for a target whose destructor leaves the free store alone, and
    as long as the program has constructed fewer than [INT_MAX] pointer
    objects, copying a pointer and destroying the copy leaves the free
    store as it was. *)
Theorem copy_then_destroy_restores s s1 s2 (r : nat) :
  reachable s -> countable s -> step s (copy r) = Some s1 ->
  step s1 (destroy (length (pointers s))) = Some s2 ->
  holders s2 = holders s.
Proof.
  intros Hs Hlen Hcopy Hdestroy. simpl in Hcopy.
  destruct (pointer_at s r) as [p|] eqn:Hr; [|discriminate].
  apply pointer_at_Some in Hr. unfold copy_constructor in Hcopy.
  pose proof (acquire_pointer (m_ref_with_target_obj_ptr p) (holders s))
    as Hq.
  destruct (acquire _ _) as [h q] eqn:Hacq. injection Hcopy as <-.
  simpl in Hq. subst q. simpl in Hdestroy. unfold pointer_at in Hdestroy.
  simpl in Hdestroy. rewrite list_lookup_middle in Hdestroy by reflexivity.
  injection Hdestroy as <-. simpl. unfold destructor, release. simpl.
  destruct (m_ref_with_target_obj_ptr p) as [a|] eqn:Hp.
  - destruct (owned_holder s r p a Hs Hlen Hr Hp) as (o & Ho & Hc & Hpos).
    pose proof (owners_within_int a s Hlen) as Hn.
    replace h with (fst (acquire (Some a) (holders s))) by now rewrite Hacq.
    apply (acquire_then_dorelease _ a o Ho). lia.
  - simpl in Hacq. now injection Hacq as <-.
Qed.

(** X14: for a target whose destructor leaves the free store alone, and
    as long as the program has constructed fewer than [INT_MAX] pointer
    objects, assigning to a pointer from a pointer with the same target,
    itself included, changes nothing: neither the free store nor any
    pointer object. *)
Theorem assign_same_target_changes_nothing s (i j : nat) p q :
  reachable s -> countable s -> pointers s !! i = Some (Some p) ->
  pointers s !! j = Some (Some q) ->
  m_ref_with_target_obj_ptr p = m_ref_with_target_obj_ptr q ->
  step s (assign i j) = Some s.
Proof.
  intros Hs Hlen Hi Hj Heq. simpl.
  rewrite (proj2 (pointer_at_Some s i p) Hi), (proj2 (pointer_at_Some s j q) Hj).
  assert (q = p) as -> by (destruct p, q; simpl in *; congruence).
  unfold operator_assign. destruct s as [h ps]. simpl in *.
  case_bool_decide.
  - f_equal. f_equal. now apply list_insert_id.
  - pose proof (acquire_pointer (m_ref_with_target_obj_ptr p) h) as Hq.
    destruct (acquire _ _) as [h1 p1] eqn:Hacq. simpl in Hq. subst p1.
    assert ({| m_ref_with_target_obj_ptr := m_ref_with_target_obj_ptr p |} = p)
      as -> by now destruct p.
    f_equal. f_equal; [|now apply list_insert_id].
    destruct (m_ref_with_target_obj_ptr p) as [a|] eqn:Hp.
    + destruct (owned_holder {| holders := h; pointers := ps |} i p a
                  Hs Hlen Hi Hp)
        as (o & Ho & Hc & Hpos). cbn [holders pointers] in Ho.
      pose proof (owners_within_int a _ Hlen) as Hn.
      replace h1 with (fst (acquire (Some a) h)) by now rewrite Hacq.
      apply (acquire_then_dorelease _ a o Ho). lia.
    + simpl in Hacq. now injection Hacq as <-.
Qed.

(** X15: for a target whose destructor leaves the free store alone, and
    as long as the program has constructed fewer than [INT_MAX] pointer
    objects, destroying a pointer, clearing it or assigning [nullptr] to it
    deletes its target exactly when it was the only owner, and otherwise
    only decrements the counter, to one less than the number of owners; no
    other holder is touched. *)
Theorem last_owner_deletes_target s s' (i : nat) p a (act : action X) :
  reachable s -> countable s -> pointers s !! i = Some (Some p) ->
  m_ref_with_target_obj_ptr p = Some a ->
  act = destroy i \/ act = call_clear i \/ act = assign_nullptr i ->
  step s act = Some s' ->
  exists o,
    holders s !! a = Some (Some o) /\
    holders s' !! a
      = (if decide (owners a s = 1) then Some None
         else Some (Some (decrement o))) /\
    m_counter (decrement o) = Z.of_nat (owners a s - 1) /\
    forall a' : nat, a' <> a -> holders s' !! a' = holders s !! a'.
Proof.
  intros Hs Hlen Hi Hp Hact Hstep.
  destruct (owned_holder s i p a Hs Hlen Hi Hp) as (o & Ho & Hc & Hpos).
  pose proof (owners_within_int a s Hlen) as Hn.
  assert (m_counter (decrement o) = Z.of_nat (owners a s - 1)) as Hdec.
  { simpl. rewrite int_wrap_small by (unfold INT_MIN, INT_MAX in *; lia).
    lia. }
  exists o. split; [exact Ho|].
  assert (holders s' = dorelease (Some a) (holders s)) as ->.
  { destruct Hact as [-> | [-> | ->]]; simpl in Hstep;
      rewrite (proj2 (pointer_at_Some s i p) Hi) in Hstep; simpl in Hstep;
      injection Hstep as <-; simpl; unfold destructor, release;
      now rewrite ?Hp. }
  unfold dorelease, free_store in *. rewrite Ho. unfold use_count.
  assert (a < length (holders s)) as Hlt by (eapply lookup_lt_Some, Ho).
  destruct (Z.eqb_spec 1 (m_counter o)) as [E|E].
  - rewrite target_leaves_store. rewrite decide_True by lia.
    split; [now apply list_lookup_insert_eq|]. split; [exact Hdec|].
    intros a' Hne. now apply list_lookup_insert_ne.
  - rewrite decide_False by lia. split; [now apply list_lookup_insert_eq|].
    split; [exact Hdec|].
    intros a' Hne. now apply list_lookup_insert_ne.
Qed.

End Facts.

(** ** The theorems at the program of [testBehaviour] *)

Section TestBehaviour.

Local Existing Instance plain_target.

Lemma plain_target_leaves_store (x : nat) (h : free_store nat) :
  target_destructor x h = h.
Proof. reflexivity. Qed.

Lemma pointer_never_dangles_witness :
  exists o, holders (after test_behaviour) !! 1 = Some (Some o).
Proof.
  destruct (pointer_never_dangles nat plain_target_leaves_store
              (after test_behaviour) 1 _ 1
              (after_counted_reachable nat test_behaviour)
              ltac:(reflexivity)
              eq_refl eq_refl)
    as (_ & _ & _ & Hlive).
  exact Hlive.
Defined.

Lemma counter_counts_owners_witness :
  owners 2 (after test_behaviour) = 0.
Proof.
  destruct (counter_counts_owners nat plain_target_leaves_store
              (after test_behaviour) 2
              (after_counted_reachable nat test_behaviour)
              ltac:(reflexivity))
    as [_ Hnone].
  apply Hnone. left. reflexivity.
Defined.

Lemma unique_means_sole_owner_witness :
  unique {| m_ref_with_target_obj_ptr := Some 1 |}
    (holders (after test_behaviour)) = true.
Proof.
  apply (unique_means_sole_owner nat plain_target_leaves_store
           (after test_behaviour) 1 _
           (after_counted_reachable nat test_behaviour)
           ltac:(reflexivity) eq_refl).
  right. exists 1. split; reflexivity.
Defined.

Lemma copy_then_destroy_restores_witness :
  holders (after (test_behaviour ++ [copy 0; destroy 6]))
  = holders (after test_behaviour).
Proof.
  exact (copy_then_destroy_restores nat plain_target_leaves_store
           (after test_behaviour)
           (after (test_behaviour ++ [copy 0]))
           (after (test_behaviour ++ [copy 0; destroy 6])) 0
           (after_counted_reachable nat test_behaviour)
           ltac:(reflexivity) eq_refl eq_refl).
Defined.

Lemma assign_same_target_changes_nothing_witness :
  step (after (test_behaviour ++ [copy 0])) (assign 0 6)
  = Some (after (test_behaviour ++ [copy 0])).
Proof.
  exact (assign_same_target_changes_nothing nat plain_target_leaves_store
           (after (test_behaviour ++ [copy 0])) 0 6 _ _
           (after_counted_reachable nat _)
           ltac:(reflexivity)
           eq_refl eq_refl eq_refl).
Defined.

Lemma last_owner_deletes_target_witness :
  exists o,
    holders (after test_behaviour) !! 1 = Some (Some o) /\
    holders (after (test_behaviour ++ [assign_nullptr 1])) !! 1 = Some None.
Proof.
  destruct (last_owner_deletes_target nat plain_target_leaves_store
              (after test_behaviour)
              (after (test_behaviour ++ [assign_nullptr 1])) 1 _ 1
              (assign_nullptr 1)
              (after_counted_reachable nat test_behaviour)
              ltac:(reflexivity) eq_refl eq_refl
              (or_intror (or_intror eq_refl)) eq_refl)
    as (o & Ho & Hdel & _).
  exists o. split; [exact Ho|exact Hdel].
Defined.

End TestBehaviour.

End RefCountedProgramFacts.
